(** * Vigenere cipher engine: a shallow embedding of [vigenere.cpp]

    The C++ class [Vigenere] owns one field, [std::string key], and offers
    [encrypt], [decrypt], [isEncrypted] and [setKey], with the private
    helpers [shiftForward] and [shiftBackward].

    Modelling choices.
    - A [char] is one byte ([ascii]); a [std::string] is a [string].
    - Whether plain [char] is signed is left to the C++ implementation, so
      the whole development is parametric in it (Section variable
      [char_sign]).  The conversion [char -> int] is [int_of_char]; the
      conversion [int -> char] on return from the shift helpers is the
      reduction modulo 2^8, [char_of_int].
    - [int] arithmetic is done in [Z].  Every intermediate value of the two
      shift helpers stays within a few hundreds, so 32-bit wrap-around never
      occurs (lemma [shift_operands_small]); [%] is the truncating remainder
      [Z.rem].
    - [std::isalpha] is the one of the default "C" locale (the program
      never changes the locale): true exactly on 'A'..'Z' and 'a'..'z'.
      A byte above 127 held in a signed [char] reaches it as a negative
      [int]; it is classified as not a letter, as the C libraries in use
      do.
    - [i % keyLength] with [keyLength = 0] is undefined behaviour; it is
      modelled as the fault [ModuloByZero].  Subscripting a string beyond
      its terminator is the fault [IndexOutOfRange].
    - String lengths are taken to fit in [int], so that
      [int keyLength = key.length()] keeps the value, and the mixed
      [size_t % int] remainder is the mathematical one on naturals.
    - A member function is a function from the object before the call to
      the returned value and the object after it ([method]). *)

From Stdlib Require Import ZArith Lia Bool Ascii String.

Local Open Scope string_scope.

(** ** Faults and the error monad *)

Inductive fault : Type :=
| ModuloByZero
| IndexOutOfRange.

Inductive result (A : Type) : Type :=
| Ok (a : A)
| Fault (f : fault).

Arguments Ok {A} a.
Arguments Fault {A} f.

Definition bind {A B : Type} (r : result A) (k : A -> result B) : result B :=
  match r with
  | Ok a => k a
  | Fault f => Fault f
  end.

Notation "x <- r ;; k" := (bind r (fun x => k))
  (at level 61, r at next level, right associativity).

(** ** Characters and strings *)

Definition char : Type := ascii.

Inductive signedness : Type :=
| Signed
| Unsigned.

(** [s[pos]] of [std::string]: the character at [pos], the terminating
    null character at [pos = s.size()], undefined beyond. *)
Definition subscript (s : string) (pos : nat) : result char :=
  match get pos s with
  | Some c => Ok c
  | None => if Nat.eqb pos (length s) then Ok zero else Fault IndexOutOfRange
  end.

(** [i % keyLength] on [size_t]. *)
Definition rem_size_t (i keyLength : nat) : result nat :=
  match keyLength with
  | O => Fault ModuloByZero
  | S _ => Ok (Nat.modulo i keyLength)
  end.

Definition isupper (ch : Z) : bool := ((65 <=? ch) && (ch <=? 90))%Z.
Definition islower (ch : Z) : bool := ((97 <=? ch) && (ch <=? 122))%Z.
Definition isalpha (ch : Z) : bool := isupper ch || islower ch.

Definition char_of_int (z : Z) : char := ascii_of_N (Z.to_N (z mod 256)).

(** ** The engine *)

Record Vigenere : Type := { key : string }.

Definition method (A : Type) : Type := Vigenere -> result (A * Vigenere).

(** Two calls on the same object, one after the other. *)
Definition and_then {A B : Type} (m : method A) (k : A -> method B) : method B :=
  fun self => r <- m self ;; k (fst r) (snd r).

Section Engine.

Variable char_sign : signedness.

Definition int_of_char (c : char) : Z :=
  let n := Z.of_N (N_of_ascii c) in
  match char_sign with
  | Signed => if (128 <=? n)%Z then (n - 256)%Z else n
  | Unsigned => n
  end.

(** [Vigenere::Vigenere(std::string key)] *)
Definition Vigenere_new (k : string) : Vigenere := {| key := k |}.

(** [return 'A' + (ch - 'A' + n) % 26;] *)
Definition shiftForward (ch : char) (n : Z) : char :=
  char_of_int (65 + Z.rem (int_of_char ch - 65 + n) 26).

(** [return 'A' + (ch - 'A' - n + 26) % 26;] *)
Definition shiftBackward (ch : char) (n : Z) : char :=
  char_of_int (65 + Z.rem (int_of_char ch - 65 - n + 26) 26).

(** The [for] loop of [encrypt]: [todo] iterations remain
    ([msg.length() - i]), [encrypted] is the output built so far. *)
Fixpoint encrypt_loop (k msg : string) (keyLength : nat)
    (todo i : nat) (encrypted : string) : result string :=
  match todo with
  | O => Ok encrypted
  | S todo' =>
      c <- subscript msg i ;;
      if isalpha (int_of_char c) then
        idx <- rem_size_t i keyLength ;;
        kc <- subscript k idx ;;
        let shift := (int_of_char kc - 65)%Z in
        encrypt_loop k msg keyLength todo' (S i)
          (encrypted ++ String (shiftForward c shift) "")
      else
        encrypt_loop k msg keyLength todo' (S i) (encrypted ++ String c "")
  end.

(** The [for] loop of [decrypt]. *)
Fixpoint decrypt_loop (k msg : string) (keyLength : nat)
    (todo i : nat) (decrypted : string) : result string :=
  match todo with
  | O => Ok decrypted
  | S todo' =>
      c <- subscript msg i ;;
      if isalpha (int_of_char c) then
        idx <- rem_size_t i keyLength ;;
        kc <- subscript k idx ;;
        let shift := (int_of_char kc - 65)%Z in
        decrypt_loop k msg keyLength todo' (S i)
          (decrypted ++ String (shiftBackward c shift) "")
      else
        decrypt_loop k msg keyLength todo' (S i) (decrypted ++ String c "")
  end.

(** [std::string Vigenere::encrypt(std::string msg)] *)
Definition encrypt (msg : string) : method string := fun self =>
  let keyLength := length (key self) in
  encrypted <- encrypt_loop (key self) msg keyLength (length msg) 0 "" ;;
  Ok (encrypted, self).

(** [std::string Vigenere::decrypt(std::string msg)] *)
Definition decrypt (msg : string) : method string := fun self =>
  let keyLength := length (key self) in
  decrypted <- decrypt_loop (key self) msg keyLength (length msg) 0 "" ;;
  Ok (decrypted, self).

(** [return encryptedMsg == encrypt(decryptedMessage);] *)
Definition isEncrypted (encryptedMsg decryptedMessage : string) : method bool :=
  fun self =>
    r <- encrypt decryptedMessage self ;;
    let '(e, self') := r in
    Ok (String.eqb encryptedMsg e, self').

(** [this->key = newKey;] *)
Definition setKey (newKey : string) : method unit := fun _ =>
  Ok (tt, {| key := newKey |}).

(** ** Functional description of the two loops

    The definitions below are not in the source: they say, character by
    character, what the loops compute, and the loops are proved equal to
    them before any property is stated. *)

(** The character at [pos], for positions known to be in range. *)
Definition char_at (s : string) (pos : nat) : char :=
  match get pos s with
  | Some c => c
  | None => zero
  end.

(** [key[i % keyLength] - 'A'] for a key of positive length. *)
Definition key_shift (k : string) (i : nat) : Z :=
  (int_of_char (char_at k (Nat.modulo i (length k))) - 65)%Z.

(** One iteration of the loop of [encrypt] at message position [i]. *)
Definition encrypt_char (k : string) (i : nat) (c : char) : char :=
  if isalpha (int_of_char c) then shiftForward c (key_shift k i) else c.

(** One iteration of the loop of [decrypt] at message position [i]. *)
Definition decrypt_char (k : string) (i : nat) (c : char) : char :=
  if isalpha (int_of_char c) then shiftBackward c (key_shift k i) else c.

(** [f] applied to every character of [s] with its position, the first
    character being at position [i]. *)
Fixpoint map_from (f : nat -> char -> char) (i : nat) (s : string) : string :=
  match s with
  | EmptyString => EmptyString
  | String c s' => String (f i c) (map_from f (S i) s')
  end.

Fixpoint string_forall (p : char -> bool) (s : string) : bool :=
  match s with
  | EmptyString => true
  | String c s' => p c && string_forall p s'
  end.

Fixpoint string_exists (p : char -> bool) (s : string) : bool :=
  match s with
  | EmptyString => false
  | String c s' => p c || string_exists p s'
  end.

Definition is_letter (c : char) : bool := isalpha (int_of_char c).
Definition is_upper_letter (c : char) : bool := isupper (int_of_char c).
Definition is_lower_letter (c : char) : bool := islower (int_of_char c).

(** The message contains a letter. *)
Definition has_letter (msg : string) : bool := string_exists is_letter msg.

(** Every character is one of 'A'..'Z'. *)
Definition all_upper (s : string) : bool := string_forall is_upper_letter s.

(** Every letter of the message is one of 'A'..'Z'. *)
Definition letters_upper (msg : string) : bool :=
  string_forall (fun c => implb (is_letter c) (is_upper_letter c)) msg.

(** Number of letters of [s]. *)
Fixpoint alpha_count (s : string) : nat :=
  match s with
  | EmptyString => O
  | String c s' => (if is_letter c then 1 else 0) + alpha_count s'
  end.

(** The key cursor as the specification words it: the number of letters
    among the characters of [msg] up to and including position [p]. *)
Definition letters_upto (msg : string) (p : nat) : nat :=
  alpha_count (substring 0 (S p) msg).

(** The other reading of the same sentence: the number of letters strictly
    before position [p] (the running count [j] before it is incremented). *)
Definition letters_before (msg : string) (p : nat) : nat :=
  alpha_count (substring 0 p msg).

(** The specification's statement on the key cursor, for a cursor function
    [cursor]: the letter at position [p] is shifted by the key character at
    index [cursor msg p mod keyLength], by [encrypt] and by [decrypt]. *)
Definition key_cursor_law (cursor : string -> nat -> nat) : Prop :=
  forall (k msg : string) (p : nat) (c : char),
    1 <= length k ->
    get p msg = Some c ->
    is_letter c = true ->
    let shift := key_shift k (cursor msg p) in
    (exists out, encrypt msg (Vigenere_new k) = Ok (out, Vigenere_new k) /\
                 get p out = Some (shiftForward c shift)) /\
    (exists out, decrypt msg (Vigenere_new k) = Ok (out, Vigenere_new k) /\
                 get p out = Some (shiftBackward c shift)).

(** A byte below 128: its [int] value is the same whether [char] is
    signed or not. *)
Definition is_ascii (c : char) : bool := (N_of_ascii c <? 128)%N.

Definition all_ascii (s : string) : bool := string_forall is_ascii s.

(** What a round trip makes of a character: a lower-case letter becomes
    the capital six places further on in the alphabet ('a' gives 'G',
    'u' gives 'A'), anything else is kept. *)
Definition fold_lower (c : char) : char :=
  if is_lower_letter c
  then char_of_int (65 + (int_of_char c - 97 + 6) mod 26)
  else c.

Fixpoint string_map (f : char -> char) (s : string) : string :=
  match s with
  | EmptyString => EmptyString
  | String c s' => String (f c) (string_map f s')
  end.

(** The key bytes from 'A' to '[', that is the shifts 0 to 26. *)
Definition key_char_in_range (kc : char) : bool :=
  ((65 <=? N_of_ascii kc) && (N_of_ascii kc <=? 91))%N.

Definition capitals : string := "ABCDEFGHIJKLMNOPQRSTUVWXYZ".

(** One iteration of [encrypt] followed by one of [decrypt], both with the
    key character [kc], gives the character [x] back. *)
Definition recovers (kc x : char) : bool :=
  Ascii.eqb (decrypt_char (String kc "") 0 (encrypt_char (String kc "") 0 x)) x.

Fixpoint blanks (n : nat) : string :=
  match n with
  | O => ""
  | S n' => String " " (blanks n')
  end.

(** ** Strings *)

Lemma append_snoc (a b : string) (c : char) :
  (a ++ String c "") ++ b = a ++ String c b.
Proof.
  induction a as [|x a IH]; simpl; [reflexivity|].
  now rewrite IH.
Qed.

Lemma append_empty_r (a : string) : a ++ "" = a.
Proof.
  induction a as [|x a IH]; simpl; [reflexivity|].
  now rewrite IH.
Qed.

Lemma length_snoc (a : string) (c : char) :
  length (a ++ String c "") = S (length a).
Proof.
  induction a as [|x a IH]; simpl; [reflexivity|].
  now rewrite IH.
Qed.

Lemma get_middle (pre suf : string) (c : char) :
  get (length pre) (pre ++ String c suf) = Some c.
Proof.
  induction pre as [|x pre IH]; simpl; [reflexivity|exact IH].
Qed.

Lemma get_in_range (s : string) (p : nat) :
  p < length s -> get p s = Some (char_at s p).
Proof.
  unfold char_at.
  revert p; induction s as [|x s IH]; intros p Hp; simpl in *; [lia|].
  destruct p as [|p]; [reflexivity|].
  apply IH; lia.
Qed.

Lemma get_some_in_range (s : string) (p : nat) (c : char) :
  get p s = Some c -> p < length s.
Proof.
  revert p; induction s as [|x s IH]; intros p Hp; simpl in *; [discriminate|].
  destruct p as [|p]; [lia|].
  apply IH in Hp; lia.
Qed.

Lemma subscript_middle (pre suf : string) (c : char) :
  subscript (pre ++ String c suf) (length pre) = Ok c.
Proof.
  unfold subscript. now rewrite get_middle.
Qed.

Lemma subscript_in_range (s : string) (p : nat) :
  p < length s -> subscript s p = Ok (char_at s p).
Proof.
  intros Hp. unfold subscript. now rewrite (get_in_range s p Hp).
Qed.

Lemma rem_size_t_pos (i n : nat) :
  0 < n -> rem_size_t i n = Ok (Nat.modulo i n).
Proof.
  destruct n; [lia|reflexivity].
Qed.

Lemma length_map_from (f : nat -> char -> char) (i : nat) (s : string) :
  length (map_from f i s) = length s.
Proof.
  revert i; induction s as [|x s IH]; intros i; simpl; [reflexivity|].
  now rewrite IH.
Qed.

Lemma get_map_from (f : nat -> char -> char) (i p : nat) (s : string) :
  get p (map_from f i s) = option_map (f (i + p)) (get p s).
Proof.
  revert i p; induction s as [|x s IH]; intros i p; simpl; [reflexivity|].
  destruct p as [|p]; simpl.
  - now rewrite Nat.add_0_r.
  - rewrite IH. now rewrite Nat.add_succ_comm.
Qed.

(** ** The loops compute [map_from] *)

Lemma key_subscript (k : string) (i : nat) :
  0 < length k ->
  subscript k (Nat.modulo i (length k)) = Ok (char_at k (Nat.modulo i (length k))).
Proof.
  intros Hk. apply subscript_in_range.
  apply Nat.mod_upper_bound. lia.
Qed.

Lemma encrypt_loop_map_from (k pre suf encrypted : string) :
  0 < length k ->
  encrypt_loop k (pre ++ suf) (length k) (length suf) (length pre) encrypted
  = Ok (encrypted ++ map_from (encrypt_char k) (length pre) suf).
Proof.
  intros Hk. revert pre encrypted.
  induction suf as [|c suf IH]; intros pre encrypted.
  - simpl. now rewrite append_empty_r.
  - cbn [length encrypt_loop map_from].
    rewrite subscript_middle. cbn [bind].
    pose proof (fun acc => IH (pre ++ String c "") acc) as IH'.
    rewrite append_snoc, length_snoc in IH'.
    unfold encrypt_char at 1. unfold key_shift.
    destruct (isalpha (int_of_char c)).
    + rewrite (rem_size_t_pos _ _ Hk). cbn [bind].
      rewrite (key_subscript k (length pre) Hk). cbn [bind].
      now rewrite IH', append_snoc.
    + now rewrite IH', append_snoc.
Qed.

Lemma decrypt_loop_map_from (k pre suf decrypted : string) :
  0 < length k ->
  decrypt_loop k (pre ++ suf) (length k) (length suf) (length pre) decrypted
  = Ok (decrypted ++ map_from (decrypt_char k) (length pre) suf).
Proof.
  intros Hk. revert pre decrypted.
  induction suf as [|c suf IH]; intros pre decrypted.
  - simpl. now rewrite append_empty_r.
  - cbn [length decrypt_loop map_from].
    rewrite subscript_middle. cbn [bind].
    pose proof (fun acc => IH (pre ++ String c "") acc) as IH'.
    rewrite append_snoc, length_snoc in IH'.
    unfold decrypt_char at 1. unfold key_shift.
    destruct (isalpha (int_of_char c)).
    + rewrite (rem_size_t_pos _ _ Hk). cbn [bind].
      rewrite (key_subscript k (length pre) Hk). cbn [bind].
      now rewrite IH', append_snoc.
    + now rewrite IH', append_snoc.
Qed.

Lemma encrypt_map_from (msg : string) (self : Vigenere) :
  0 < length (key self) ->
  encrypt msg self = Ok (map_from (encrypt_char (key self)) 0 msg, self).
Proof.
  intros Hk. unfold encrypt.
  pose proof (encrypt_loop_map_from (key self) "" msg "" Hk) as H.
  cbn [append length] in H. now rewrite H.
Qed.

Lemma decrypt_map_from (msg : string) (self : Vigenere) :
  0 < length (key self) ->
  decrypt msg self = Ok (map_from (decrypt_char (key self)) 0 msg, self).
Proof.
  intros Hk. unfold decrypt.
  pose proof (decrypt_loop_map_from (key self) "" msg "" Hk) as H.
  cbn [append length] in H. now rewrite H.
Qed.

(** With an empty key the loops stop at the first letter. *)

Lemma encrypt_loop_empty_key (pre suf encrypted : string) :
  encrypt_loop "" (pre ++ suf) 0 (length suf) (length pre) encrypted
  = if has_letter suf then Fault ModuloByZero else Ok (encrypted ++ suf).
Proof.
  revert pre encrypted.
  induction suf as [|c suf IH]; intros pre encrypted.
  - simpl. now rewrite append_empty_r.
  - cbn [length encrypt_loop].
    rewrite subscript_middle. cbn [bind].
    unfold has_letter. cbn [string_exists]. unfold is_letter at 1.
    destruct (isalpha (int_of_char c)); [reflexivity|].
    pose proof (fun acc => IH (pre ++ String c "") acc) as IH'.
    rewrite append_snoc, length_snoc in IH'.
    now rewrite IH', append_snoc.
Qed.

Lemma decrypt_loop_empty_key (pre suf decrypted : string) :
  decrypt_loop "" (pre ++ suf) 0 (length suf) (length pre) decrypted
  = if has_letter suf then Fault ModuloByZero else Ok (decrypted ++ suf).
Proof.
  revert pre decrypted.
  induction suf as [|c suf IH]; intros pre decrypted.
  - simpl. now rewrite append_empty_r.
  - cbn [length decrypt_loop].
    rewrite subscript_middle. cbn [bind].
    unfold has_letter. cbn [string_exists]. unfold is_letter at 1.
    destruct (isalpha (int_of_char c)); [reflexivity|].
    pose proof (fun acc => IH (pre ++ String c "") acc) as IH'.
    rewrite append_snoc, length_snoc in IH'.
    now rewrite IH', append_snoc.
Qed.

(** ** Characters and the two shift helpers *)

Lemma N_of_ascii_small (c : char) : (0 <= Z.of_N (N_of_ascii c) < 256)%Z.
Proof.
  pose proof (N_ascii_bounded c). lia.
Qed.

Lemma int_of_char_range (c : char) : (-128 <= int_of_char c <= 255)%Z.
Proof.
  pose proof (N_of_ascii_small c) as H. unfold int_of_char.
  destruct char_sign; [destruct (Z.leb_spec 128 (Z.of_N (N_of_ascii c)))|]; lia.
Qed.

Lemma char_of_int_of_char (c : char) : char_of_int (int_of_char c) = c.
Proof.
  pose proof (N_of_ascii_small c) as H.
  assert (E : (int_of_char c mod 256 = Z.of_N (N_of_ascii c))%Z).
  { unfold int_of_char.
    destruct char_sign; [destruct (Z.leb_spec 128 (Z.of_N (N_of_ascii c)))|].
    - symmetry. apply (Z.mod_unique _ _ (-1)); lia.
    - apply Z.mod_small; lia.
    - apply Z.mod_small; lia. }
  unfold char_of_int. rewrite E, N2Z.id. apply ascii_N_embedding.
Qed.

Lemma int_of_char_of_int (z : Z) :
  (0 <= z < 128)%Z -> int_of_char (char_of_int z) = z.
Proof.
  intros Hz. unfold int_of_char, char_of_int.
  rewrite Z.mod_small by lia.
  rewrite N_ascii_embedding by lia.
  rewrite Z2N.id by lia.
  destruct char_sign; [destruct (Z.leb_spec 128 z)|]; lia.
Qed.

(** No [int] overflow in the shift helpers, whatever the characters. *)
Lemma shift_operands_small (ch kc : char) :
  let n := (int_of_char kc - 65)%Z in
  (-512 <= int_of_char ch - 65 + n <= 512)%Z /\
  (-512 <= int_of_char ch - 65 - n + 26 <= 512)%Z /\
  (40 <= 65 + Z.rem (int_of_char ch - 65 + n) 26 <= 90)%Z /\
  (40 <= 65 + Z.rem (int_of_char ch - 65 - n + 26) 26 <= 90)%Z.
Proof.
  pose proof (int_of_char_range ch). pose proof (int_of_char_range kc).
  cbv zeta.
  pose proof (Z.rem_bound_abs (int_of_char ch - 65 + (int_of_char kc - 65)) 26).
  pose proof (Z.rem_bound_abs (int_of_char ch - 65 - (int_of_char kc - 65) + 26) 26).
  lia.
Qed.

Lemma isupper_range (z : Z) : isupper z = true <-> (65 <= z <= 90)%Z.
Proof.
  unfold isupper. rewrite andb_true_iff, !Z.leb_le. tauto.
Qed.

Lemma islower_range (z : Z) : islower z = true <-> (97 <= z <= 122)%Z.
Proof.
  unfold islower. rewrite andb_true_iff, !Z.leb_le. tauto.
Qed.

Lemma isalpha_range (z : Z) :
  isalpha z = true <-> (65 <= z <= 90)%Z \/ (97 <= z <= 122)%Z.
Proof.
  unfold isalpha. now rewrite orb_true_iff, isupper_range, islower_range.
Qed.

(** On a letter and a shift in 0..25 the truncating remainder is the
    mathematical one, and the result is a capital letter. *)
Lemma shiftForward_letter (c : char) (n : Z) :
  isalpha (int_of_char c) = true -> (0 <= n <= 25)%Z ->
  shiftForward c n = char_of_int (65 + (int_of_char c - 65 + n) mod 26) /\
  int_of_char (shiftForward c n) = (65 + (int_of_char c - 65 + n) mod 26)%Z /\
  isupper (int_of_char (shiftForward c n)) = true.
Proof.
  intros Hc Hn. apply isalpha_range in Hc.
  assert (E : shiftForward c n = char_of_int (65 + (int_of_char c - 65 + n) mod 26)).
  { unfold shiftForward. now rewrite Z.rem_mod_nonneg by lia. }
  pose proof (Z.mod_pos_bound (int_of_char c - 65 + n) 26 ltac:(lia)) as Hm.
  rewrite E, int_of_char_of_int by lia.
  repeat split. apply isupper_range. lia.
Qed.

Lemma shiftBackward_shiftForward (c : char) (n : Z) :
  isupper (int_of_char c) = true -> (0 <= n <= 25)%Z ->
  shiftBackward (shiftForward c n) n = c.
Proof.
  intros Hc Hn.
  assert (Ha : isalpha (int_of_char c) = true) by (unfold isalpha; now rewrite Hc).
  destruct (shiftForward_letter c n Ha Hn) as (_ & E & _).
  apply isupper_range in Hc.
  unfold shiftBackward. rewrite E.
  rewrite <- (char_of_int_of_char c) at 2. f_equal.
  rewrite Z.rem_mod_nonneg.
  - pose proof (Z.mod_pos_bound (int_of_char c - 65 + n) 26 ltac:(lia)).
    Z.to_euclidean_division_equations. lia.
  - pose proof (Z.mod_pos_bound (int_of_char c - 65 + n) 26 ltac:(lia)). lia.
  - lia.
Qed.

(** ** Keys of capital letters *)

Lemma string_forall_get (q : char -> bool) (s : string) (p : nat) (c : char) :
  string_forall q s = true -> get p s = Some c -> q c = true.
Proof.
  revert p; induction s as [|x s IH]; intros p Hs Hp; simpl in *; [discriminate|].
  apply andb_true_iff in Hs. destruct Hs as [Hx Hs].
  destruct p as [|p].
  - now injection Hp as <-.
  - now apply (IH p).
Qed.

Lemma key_shift_range (k : string) (i : nat) :
  0 < length k -> all_upper k = true -> (0 <= key_shift k i <= 25)%Z.
Proof.
  intros Hk Hu. unfold key_shift.
  assert (Hi : Nat.modulo i (length k) < length k)
    by (apply Nat.mod_upper_bound; lia).
  pose proof (string_forall_get _ _ _ _ Hu (get_in_range k _ Hi)) as H.
  apply isupper_range in H. lia.
Qed.

Lemma encrypt_char_letter (k : string) (i : nat) (c : char) :
  is_letter c = true -> encrypt_char k i c = shiftForward c (key_shift k i).
Proof.
  unfold is_letter, encrypt_char. now intros ->.
Qed.

Lemma decrypt_char_letter (k : string) (i : nat) (c : char) :
  is_letter c = true -> decrypt_char k i c = shiftBackward c (key_shift k i).
Proof.
  unfold is_letter, decrypt_char. now intros ->.
Qed.

Lemma encrypt_char_other (k : string) (i : nat) (c : char) :
  is_letter c = false -> encrypt_char k i c = c.
Proof.
  unfold is_letter, encrypt_char. now intros ->.
Qed.

Lemma decrypt_char_other (k : string) (i : nat) (c : char) :
  is_letter c = false -> decrypt_char k i c = c.
Proof.
  unfold is_letter, decrypt_char. now intros ->.
Qed.

Lemma decrypt_encrypt_char (k : string) (i : nat) (c : char) :
  0 < length k -> all_upper k = true ->
  implb (is_letter c) (is_upper_letter c) = true ->
  decrypt_char k i (encrypt_char k i c) = c.
Proof.
  intros Hk Hu Hc.
  pose proof (key_shift_range k i Hk Hu) as Hs.
  destruct (is_letter c) eqn:Hl; simpl in Hc.
  - rewrite (encrypt_char_letter k i c Hl).
    destruct (shiftForward_letter c (key_shift k i) Hl Hs) as (_ & _ & Hup).
    rewrite decrypt_char_letter.
    + now apply shiftBackward_shiftForward.
    + unfold is_letter, isalpha. now rewrite Hup.
  - rewrite (encrypt_char_other k i c Hl). now apply decrypt_char_other.
Qed.

Lemma decrypt_encrypt_map_from (k : string) (i : nat) (msg : string) :
  0 < length k -> all_upper k = true -> letters_upper msg = true ->
  map_from (decrypt_char k) i (map_from (encrypt_char k) i msg) = msg.
Proof.
  intros Hk Hu. revert i.
  induction msg as [|c msg IH]; intros i Hm; simpl; [reflexivity|].
  unfold letters_upper in Hm. simpl in Hm.
  apply andb_true_iff in Hm. destruct Hm as [Hc Hm].
  rewrite (decrypt_encrypt_char k i c Hk Hu Hc).
  f_equal. now apply IH.
Qed.

(** A key made of 'A' only shifts by zero. *)
Lemma shiftForward_zero (c : char) :
  is_upper_letter c = true -> shiftForward c 0 = c.
Proof.
  intros Hc. apply isupper_range in Hc.
  unfold shiftForward.
  rewrite Z.add_0_r, Z.rem_small by lia.
  rewrite <- (char_of_int_of_char c) at 2. f_equal. lia.
Qed.

Lemma map_from_key_A (i : nat) (msg : string) :
  all_upper msg = true -> map_from (encrypt_char "A") i msg = msg.
Proof.
  revert i. induction msg as [|c msg IH]; intros i Hm; simpl; [reflexivity|].
  unfold all_upper in Hm. simpl in Hm.
  apply andb_true_iff in Hm. destruct Hm as [Hc Hm].
  rewrite (IH (S i) Hm). f_equal.
  assert (Hl : is_letter c = true).
  { unfold is_letter, isalpha. unfold is_upper_letter in Hc. now rewrite Hc. }
  rewrite (encrypt_char_letter "A" i c Hl).
  unfold key_shift. cbn [length]. rewrite Nat.mod_1_r.
  replace (int_of_char (char_at "A" 0) - 65)%Z with 0%Z.
  - now apply shiftForward_zero.
  - unfold int_of_char. destruct char_sign; reflexivity.
Qed.

Lemma encrypt_key_A (msg : string) :
  all_upper msg = true ->
  encrypt msg (Vigenere_new "A") = Ok (msg, Vigenere_new "A").
Proof.
  intros Hm. rewrite encrypt_map_from by (simpl; lia).
  simpl. now rewrite map_from_key_A.
Qed.

(** ** Properties of the engine *)

(** C1 (as the code has it): for a key of length at least 1, the key index
    used for a letter at position [p] of the message is [p mod keyLength],
    the position in the whole message: every character, letter or not,
    advances the key position.  This holds for [encrypt] and [decrypt]. *)
Theorem key_index_is_message_position (k msg : string) (p : nat) (c : char) :
  1 <= length k ->
  get p msg = Some c ->
  is_letter c = true ->
  let idx := Nat.modulo p (length k) in
  let shift := (int_of_char (char_at k idx) - 65)%Z in
  rem_size_t p (length k) = Ok idx /\
  subscript k idx = Ok (char_at k idx) /\
  (exists out, encrypt msg (Vigenere_new k) = Ok (out, Vigenere_new k) /\
               get p out = Some (shiftForward c shift)) /\
  (exists out, decrypt msg (Vigenere_new k) = Ok (out, Vigenere_new k) /\
               get p out = Some (shiftBackward c shift)).
Proof.
  intros Hk Hp Hc idx shift.
  assert (Hk' : 0 < length (key (Vigenere_new k))) by (simpl; lia).
  split; [apply rem_size_t_pos; lia|].
  split; [apply key_subscript; lia|].
  split.
  - eexists. split; [apply (encrypt_map_from msg _ Hk')|].
    rewrite get_map_from, Hp. simpl.
    now rewrite (encrypt_char_letter k p c Hc).
  - eexists. split; [apply (decrypt_map_from msg _ Hk')|].
    rewrite get_map_from, Hp. simpl.
    now rewrite (decrypt_char_letter k p c Hc).
Qed.

(** C2: for a non-empty key of capital letters and a message whose letters
    are all capital, decrypting the encryption under the same, unchanged
    key gives the message back. *)
Theorem decrypt_encrypt_roundtrip (self : Vigenere) (msg : string) :
  1 <= length (key self) ->
  all_upper (key self) = true ->
  letters_upper msg = true ->
  exists e, encrypt msg self = Ok (e, self) /\ decrypt e self = Ok (msg, self).
Proof.
  intros Hk Hu Hm.
  exists (map_from (encrypt_char (key self)) 0 msg).
  split; [apply encrypt_map_from; lia|].
  rewrite decrypt_map_from by lia.
  now rewrite decrypt_encrypt_map_from by (assumption || lia).
Qed.

(** C3: for a non-empty key, [isEncrypted c m] returns true exactly when
    [c] equals [encrypt m] under the current key; it is true on
    [encrypt m] itself and false on every other candidate. *)
Theorem isEncrypted_iff_encrypt (self : Vigenere) (c m : string) :
  1 <= length (key self) ->
  exists e, encrypt m self = Ok (e, self) /\
    (isEncrypted c m self = Ok (true, self) <-> c = e) /\
    (c <> e -> isEncrypted c m self = Ok (false, self)) /\
    isEncrypted e m self = Ok (true, self).
Proof.
  intros Hk.
  exists (map_from (encrypt_char (key self)) 0 m).
  assert (He : encrypt m self = Ok (map_from (encrypt_char (key self)) 0 m, self))
    by (apply encrypt_map_from; lia).
  split; [exact He|].
  unfold isEncrypted. rewrite He. cbn [bind].
  repeat split.
  - intros H. apply String.eqb_eq. congruence.
  - intros ->. now rewrite String.eqb_refl.
  - intros H. apply String.eqb_neq in H. now rewrite H.
  - now rewrite String.eqb_refl.
Qed.

(** C4: for a non-empty key, a character of the message that is not a
    letter is found unchanged at the same position of the output of
    [encrypt] and of [decrypt]. *)
Theorem non_letters_pass_through (self : Vigenere) (msg : string) (p : nat) (c : char) :
  1 <= length (key self) ->
  get p msg = Some c ->
  is_letter c = false ->
  (exists out, encrypt msg self = Ok (out, self) /\ get p out = Some c) /\
  (exists out, decrypt msg self = Ok (out, self) /\ get p out = Some c).
Proof.
  intros Hk Hp Hc. split.
  - eexists. split; [apply encrypt_map_from; lia|].
    rewrite get_map_from, Hp. simpl.
    now rewrite (encrypt_char_other _ p c Hc).
  - eexists. split; [apply decrypt_map_from; lia|].
    rewrite get_map_from, Hp. simpl.
    now rewrite (decrypt_char_other _ p c Hc).
Qed.

(** C5: for a non-empty key, [encrypt] and [decrypt] return (no fault) on
    every message, the output has the length of the input, and the empty
    message gives the empty output. *)
Theorem encrypt_decrypt_preserve_length (self : Vigenere) (msg : string) :
  1 <= length (key self) ->
  (exists out, encrypt msg self = Ok (out, self) /\ length out = length msg) /\
  (exists out, decrypt msg self = Ok (out, self) /\ length out = length msg) /\
  encrypt "" self = Ok ("", self) /\
  decrypt "" self = Ok ("", self).
Proof.
  intros Hk. repeat split.
  - eexists. split; [apply encrypt_map_from; lia|apply length_map_from].
  - eexists. split; [apply decrypt_map_from; lia|apply length_map_from].
Qed.

(** C6 (as the code has it): with an empty key, [encrypt], [decrypt] and
    [isEncrypted] take the remainder by zero exactly when the message (for
    [isEncrypted], the plaintext argument) contains a letter; on a message
    without letters they return normally, the message unchanged. *)
Theorem empty_key_faults_iff_letter (self : Vigenere) (msg e : string) :
  length (key self) = 0 ->
  encrypt msg self
    = (if has_letter msg then Fault ModuloByZero else Ok (msg, self)) /\
  decrypt msg self
    = (if has_letter msg then Fault ModuloByZero else Ok (msg, self)) /\
  isEncrypted e msg self
    = (if has_letter msg then Fault ModuloByZero
       else Ok (String.eqb e msg, self)).
Proof.
  intros Hk.
  assert (Ek : key self = "") by (destruct (key self); [reflexivity|discriminate]).
  pose proof (encrypt_loop_empty_key "" msg "") as He.
  pose proof (decrypt_loop_empty_key "" msg "") as Hd.
  cbn [append length] in He, Hd.
  assert (E : encrypt msg self
              = if has_letter msg then Fault ModuloByZero else Ok (msg, self)).
  { unfold encrypt. rewrite Ek. cbn [length]. rewrite He.
    now destruct (has_letter msg). }
  repeat split.
  - exact E.
  - unfold decrypt. rewrite Ek. cbn [length]. rewrite Hd.
    now destruct (has_letter msg).
  - unfold isEncrypted. rewrite E. now destruct (has_letter msg).
Qed.

(** C7: for a key of capital letters, a lower-case letter of the message
    is classified as a letter by [encrypt], so it is shifted and not passed
    through, and the output character is
    ['A' + ((ch - 'A' + shift) mod 26)], the formula of [shiftForward] that
    capital letters go through, with [shift] the position of the current
    key character with respect to 'A'. *)
Theorem lowercase_shifted_as_uppercase
    (self : Vigenere) (msg : string) (p : nat) (c : char) :
  1 <= length (key self) ->
  all_upper (key self) = true ->
  get p msg = Some c ->
  is_lower_letter c = true ->
  let kc := char_at (key self) (Nat.modulo p (length (key self))) in
  let shift := (int_of_char kc - 65)%Z in
  is_letter c = true /\
  (0 <= shift <= 25)%Z /\
  exists out o,
    encrypt msg self = Ok (out, self) /\
    get p out = Some o /\
    o = shiftForward c shift /\
    o = char_of_int (65 + (int_of_char c - 65 + shift) mod 26) /\
    int_of_char o = (65 + (int_of_char c - 65 + shift) mod 26)%Z /\
    o <> c.
Proof.
  intros Hk Hu Hp Hc kc shift.
  assert (Hl : is_letter c = true).
  { unfold is_letter, isalpha. unfold is_lower_letter in Hc.
    rewrite Hc. apply orb_true_r. }
  assert (Hs : (0 <= shift <= 25)%Z)
    by (apply (key_shift_range (key self) p); [lia|assumption]).
  destruct (shiftForward_letter c shift Hl Hs) as (E1 & E2 & E3).
  split; [exact Hl|]. split; [exact Hs|].
  exists (map_from (encrypt_char (key self)) 0 msg), (shiftForward c shift).
  split; [apply encrypt_map_from; lia|].
  split.
  { rewrite get_map_from, Hp. simpl.
    now rewrite (encrypt_char_letter _ p c Hl). }
  repeat split; try assumption.
  intros Heq. rewrite Heq in E3.
  apply isupper_range in E3. apply islower_range in Hc. lia.
Qed.

(** C10: [encrypt], [decrypt] and [isEncrypted] return with the stored key
    as it was before the call, whatever the engine and the arguments; the
    constructor and [setKey] are the operations that write it. *)
Theorem queries_leave_key_unchanged (self : Vigenere) (msg e : string) :
  (forall out self', encrypt msg self = Ok (out, self') -> key self' = key self) /\
  (forall out self', decrypt msg self = Ok (out, self') -> key self' = key self) /\
  (forall b self', isEncrypted e msg self = Ok (b, self') -> key self' = key self) /\
  (forall newKey u self', setKey newKey self = Ok (u, self') -> key self' = newKey) /\
  (forall k, key (Vigenere_new k) = k).
Proof.
  assert (He : forall out self',
             encrypt msg self = Ok (out, self') -> key self' = key self).
  { intros out self'. unfold encrypt.
    destruct (encrypt_loop _ _ _ _ _ _); cbn [bind]; [|discriminate].
    now intros [= _ <-]. }
  repeat split.
  - exact He.
  - intros out self'. unfold decrypt.
    destruct (decrypt_loop _ _ _ _ _ _); cbn [bind]; [|discriminate].
    now intros [= _ <-].
  - intros b self'. unfold isEncrypted.
    destruct (encrypt msg self) as [[x s']|f] eqn:E; cbn [bind]; [|discriminate].
    intros [= _ <-]. exact (He x s' eq_refl).
  - intros newKey u self'. unfold setKey. now intros [= _ <-].
Qed.

(** ** Further properties: the second round trip and lower-case letters *)

Lemma shiftBackward_letter (c : char) (n : Z) :
  isalpha (int_of_char c) = true -> (0 <= n <= 25)%Z ->
  int_of_char (shiftBackward c n) = (65 + (int_of_char c - 65 - n + 26) mod 26)%Z /\
  isupper (int_of_char (shiftBackward c n)) = true.
Proof.
  intros Hc Hn. apply isalpha_range in Hc.
  pose proof (Z.mod_pos_bound (int_of_char c - 65 - n + 26) 26 ltac:(lia)) as Hm.
  assert (E : int_of_char (shiftBackward c n)
              = (65 + (int_of_char c - 65 - n + 26) mod 26)%Z).
  { unfold shiftBackward. rewrite Z.rem_mod_nonneg by lia.
    apply int_of_char_of_int. lia. }
  split; [exact E|]. rewrite E. apply isupper_range. lia.
Qed.

Lemma shiftForward_shiftBackward (c : char) (n : Z) :
  isupper (int_of_char c) = true -> (0 <= n <= 25)%Z ->
  shiftForward (shiftBackward c n) n = c.
Proof.
  intros Hc Hn.
  assert (Ha : isalpha (int_of_char c) = true) by (unfold isalpha; now rewrite Hc).
  destruct (shiftBackward_letter c n Ha Hn) as (E & _).
  apply isupper_range in Hc.
  pose proof (Z.mod_pos_bound (int_of_char c - 65 - n + 26) 26 ltac:(lia)) as Hm.
  unfold shiftForward. rewrite E.
  rewrite <- (char_of_int_of_char c) at 2. f_equal.
  rewrite Z.rem_mod_nonneg by lia.
  Z.to_euclidean_division_equations. lia.
Qed.

Lemma upper_is_letter (c : char) :
  is_upper_letter c = true -> is_letter c = true.
Proof.
  unfold is_upper_letter, is_letter, isalpha. now intros ->.
Qed.

Lemma lower_is_letter (c : char) :
  is_lower_letter c = true -> is_letter c = true.
Proof.
  unfold is_lower_letter, is_letter, isalpha. intros ->. apply orb_true_r.
Qed.

Lemma letter_cases (c : char) :
  is_letter c = true -> is_upper_letter c = true \/ is_lower_letter c = true.
Proof.
  unfold is_letter, isalpha, is_upper_letter, is_lower_letter.
  apply orb_true_iff.
Qed.

Lemma upper_not_lower (c : char) :
  is_upper_letter c = true -> is_lower_letter c = false.
Proof.
  unfold is_upper_letter, is_lower_letter. intros H.
  apply isupper_range in H.
  destruct (islower (int_of_char c)) eqn:E; [|reflexivity].
  apply islower_range in E. lia.
Qed.

Lemma encrypt_decrypt_char (k : string) (i : nat) (c : char) :
  0 < length k -> all_upper k = true ->
  implb (is_letter c) (is_upper_letter c) = true ->
  encrypt_char k i (decrypt_char k i c) = c.
Proof.
  intros Hk Hu Hc.
  pose proof (key_shift_range k i Hk Hu) as Hs.
  destruct (is_letter c) eqn:Hl; simpl in Hc.
  - rewrite (decrypt_char_letter k i c Hl).
    destruct (shiftBackward_letter c (key_shift k i) Hl Hs) as (_ & Hup).
    rewrite encrypt_char_letter by (now apply upper_is_letter).
    now apply shiftForward_shiftBackward.
  - rewrite (decrypt_char_other k i c Hl). now apply encrypt_char_other.
Qed.

Lemma encrypt_decrypt_map_from (k : string) (i : nat) (msg : string) :
  0 < length k -> all_upper k = true -> letters_upper msg = true ->
  map_from (encrypt_char k) i (map_from (decrypt_char k) i msg) = msg.
Proof.
  intros Hk Hu. revert i.
  induction msg as [|c msg IH]; intros i Hm; simpl; [reflexivity|].
  unfold letters_upper in Hm. simpl in Hm.
  apply andb_true_iff in Hm. destruct Hm as [Hc Hm].
  rewrite (encrypt_decrypt_char k i c Hk Hu Hc).
  f_equal. now apply IH.
Qed.

(** The capital a lower-case letter is folded to. *)
Lemma fold_lower_lower (c : char) :
  is_lower_letter c = true ->
  int_of_char (fold_lower c) = (65 + (int_of_char c - 97 + 6) mod 26)%Z /\
  is_upper_letter (fold_lower c) = true.
Proof.
  intros Hc. unfold fold_lower. rewrite Hc.
  apply islower_range in Hc.
  pose proof (Z.mod_pos_bound (int_of_char c - 97 + 6) 26 ltac:(lia)) as Hm.
  unfold is_upper_letter.
  rewrite int_of_char_of_int by lia.
  split; [reflexivity|]. apply isupper_range. lia.
Qed.

Lemma fold_lower_other (c : char) :
  is_lower_letter c = false -> fold_lower c = c.
Proof.
  unfold fold_lower. now intros ->.
Qed.

Lemma decrypt_encrypt_char_fold (k : string) (i : nat) (c : char) :
  0 < length k -> all_upper k = true ->
  decrypt_char k i (encrypt_char k i c) = fold_lower c.
Proof.
  intros Hk Hu.
  pose proof (key_shift_range k i Hk Hu) as Hs.
  destruct (is_lower_letter c) eqn:Hlow.
  - pose proof (lower_is_letter c Hlow) as Hl.
    rewrite (encrypt_char_letter k i c Hl).
    destruct (shiftForward_letter c (key_shift k i) Hl Hs) as (_ & E & Hup).
    rewrite decrypt_char_letter by (now apply upper_is_letter).
    destruct (fold_lower_lower c Hlow) as (F & _).
    rewrite <- (char_of_int_of_char (fold_lower c)), F.
    unfold shiftBackward. rewrite E. f_equal.
    apply islower_range in Hlow.
    pose proof (Z.mod_pos_bound (int_of_char c - 65 + key_shift k i) 26 ltac:(lia)).
    rewrite Z.rem_mod_nonneg by lia.
    Z.to_euclidean_division_equations. lia.
  - rewrite (fold_lower_other c Hlow).
    apply decrypt_encrypt_char; try assumption.
    destruct (is_letter c) eqn:Hl; [simpl|reflexivity].
    destruct (letter_cases c Hl) as [H|H]; [exact H|congruence].
Qed.

Lemma encrypt_char_fold (k : string) (i : nat) (c : char) :
  0 < length k -> all_upper k = true ->
  encrypt_char k i (fold_lower c) = encrypt_char k i c.
Proof.
  intros Hk Hu.
  pose proof (key_shift_range k i Hk Hu) as Hs.
  destruct (is_lower_letter c) eqn:Hlow; [|now rewrite fold_lower_other].
  pose proof (lower_is_letter c Hlow) as Hl.
  destruct (fold_lower_lower c Hlow) as (F & Fup).
  pose proof (upper_is_letter _ Fup) as Fl.
  rewrite (encrypt_char_letter k i c Hl), (encrypt_char_letter k i _ Fl).
  destruct (shiftForward_letter c (key_shift k i) Hl Hs) as (-> & _).
  destruct (shiftForward_letter _ (key_shift k i) Fl Hs) as (-> & _).
  rewrite F. f_equal.
  apply islower_range in Hlow.
  Z.to_euclidean_division_equations. lia.
Qed.

Lemma string_map_fold_fixed (msg : string) :
  string_map fold_lower msg = msg <-> letters_upper msg = true.
Proof.
  unfold letters_upper.
  induction msg as [|c msg IH]; simpl; [tauto|].
  rewrite andb_true_iff, <- IH. split.
  - intros [= Hc Hm]. split; [|exact Hm].
    destruct (is_letter c) eqn:Hl; [simpl|reflexivity].
    destruct (letter_cases c Hl) as [H|H]; [exact H|].
    destruct (fold_lower_lower c H) as (_ & Fup). now rewrite Hc in Fup.
  - intros [Hc Hm]. rewrite Hm. f_equal.
    apply fold_lower_other.
    destruct (is_letter c) eqn:Hl; simpl in Hc.
    + now apply upper_not_lower.
    + destruct (is_lower_letter c) eqn:E; [|reflexivity].
      apply lower_is_letter in E. congruence.
Qed.

Lemma decrypt_encrypt_map_from_fold (k : string) (i : nat) (msg : string) :
  0 < length k -> all_upper k = true ->
  map_from (decrypt_char k) i (map_from (encrypt_char k) i msg)
  = string_map fold_lower msg.
Proof.
  intros Hk Hu. revert i.
  induction msg as [|c msg IH]; intros i; simpl; [reflexivity|].
  now rewrite (decrypt_encrypt_char_fold k i c Hk Hu), IH.
Qed.

Lemma encrypt_map_from_fold (k : string) (i : nat) (msg : string) :
  0 < length k -> all_upper k = true ->
  map_from (encrypt_char k) i (string_map fold_lower msg)
  = map_from (encrypt_char k) i msg.
Proof.
  intros Hk Hu. revert i.
  induction msg as [|c msg IH]; intros i; simpl; [reflexivity|].
  now rewrite (encrypt_char_fold k i c Hk Hu), IH.
Qed.

(** X1: for a non-empty key of capital letters and a message whose letters
    are all capital, encrypting the decryption under the same key gives
    the message back: [decrypt] is also a right inverse of [encrypt]. *)
Theorem encrypt_after_decrypt_roundtrip (self : Vigenere) (msg : string) :
  1 <= length (key self) ->
  all_upper (key self) = true ->
  letters_upper msg = true ->
  exists d, decrypt msg self = Ok (d, self) /\ encrypt d self = Ok (msg, self).
Proof.
  intros Hk Hu Hm.
  exists (map_from (decrypt_char (key self)) 0 msg).
  split; [apply decrypt_map_from; lia|].
  rewrite encrypt_map_from by lia.
  now rewrite encrypt_decrypt_map_from by (assumption || lia).
Qed.

(** X2: for a non-empty key of capital letters and any message, decrypting
    the encryption returns the message with every lower-case letter
    replaced by the capital six places further on in the alphabet, whatever
    the key; so the round trip gives the message back exactly when it has
    no lower-case letter. *)
Theorem roundtrip_folds_lowercase (self : Vigenere) (msg : string) :
  1 <= length (key self) ->
  all_upper (key self) = true ->
  exists e,
    encrypt msg self = Ok (e, self) /\
    decrypt e self = Ok (string_map fold_lower msg, self) /\
    (decrypt e self = Ok (msg, self) <-> letters_upper msg = true).
Proof.
  intros Hk Hu.
  exists (map_from (encrypt_char (key self)) 0 msg).
  split; [apply encrypt_map_from; lia|].
  rewrite decrypt_map_from by lia.
  rewrite decrypt_encrypt_map_from_fold by (assumption || lia).
  split; [reflexivity|].
  rewrite <- string_map_fold_fixed. split.
  - now intros [= H].
  - now intros ->.
Qed.

(** X3: for a non-empty key of capital letters, [encrypt] does not tell a
    lower-case letter from the capital six places further on: a message
    and its folded form have the same ciphertext. *)
Theorem encrypt_ignores_lowercase_fold (self : Vigenere) (msg : string) :
  1 <= length (key self) ->
  all_upper (key self) = true ->
  exists e,
    encrypt msg self = Ok (e, self) /\
    encrypt (string_map fold_lower msg) self = Ok (e, self).
Proof.
  intros Hk Hu.
  exists (map_from (encrypt_char (key self)) 0 msg).
  split; [apply encrypt_map_from; lia|].
  rewrite encrypt_map_from by lia.
  now rewrite encrypt_map_from_fold by (assumption || lia).
Qed.

(** X4: for a non-empty key of capital letters and two strings without
    lower-case letters, [isEncrypted c m] is true exactly when [decrypt c]
    is [m]: the comparison of encryptions agrees with the comparison "when
    decrypted" of the function's documentation. *)
Theorem isEncrypted_agrees_with_decrypt (self : Vigenere) (c m : string) :
  1 <= length (key self) ->
  all_upper (key self) = true ->
  letters_upper c = true ->
  letters_upper m = true ->
  isEncrypted c m self = Ok (true, self) <-> decrypt c self = Ok (m, self).
Proof.
  intros Hk Hu Hc Hm.
  unfold isEncrypted.
  rewrite (encrypt_map_from m self) by lia. cbn [bind].
  rewrite decrypt_map_from by lia.
  split.
  - intros [= H]. apply String.eqb_eq in H. subst c.
    now rewrite decrypt_encrypt_map_from by (assumption || lia).
  - intros [= H]. subst m.
    rewrite encrypt_decrypt_map_from by (assumption || lia).
    now rewrite String.eqb_refl.
Qed.

(** X5: for a non-empty key, [isEncrypted] is false on two strings of
    different lengths. *)
Theorem isEncrypted_false_on_length_mismatch (self : Vigenere) (c m : string) :
  1 <= length (key self) ->
  length c <> length m ->
  isEncrypted c m self = Ok (false, self).
Proof.
  intros Hk Hlen.
  unfold isEncrypted.
  rewrite (encrypt_map_from m self) by lia. cbn [bind].
  destruct (String.eqb_spec c (map_from (encrypt_char (key self)) 0 m)) as [E|E];
    [|reflexivity].
  exfalso. apply Hlen. rewrite E. apply length_map_from.
Qed.

(** X6: for a non-empty key of capital letters, the output of [encrypt] and
    of [decrypt] has a letter exactly where the input has one, and that
    letter is a capital, also when the input letter is lower-case. *)
Theorem letters_become_capitals
    (self : Vigenere) (msg : string) (p : nat) (c : char) :
  1 <= length (key self) ->
  all_upper (key self) = true ->
  get p msg = Some c ->
  (exists out o, encrypt msg self = Ok (out, self) /\ get p out = Some o /\
                 is_letter o = is_letter c /\ is_upper_letter o = is_letter c) /\
  (exists out o, decrypt msg self = Ok (out, self) /\ get p out = Some o /\
                 is_letter o = is_letter c /\ is_upper_letter o = is_letter c).
Proof.
  intros Hk Hu Hp.
  pose proof (key_shift_range (key self) p ltac:(lia) Hu) as Hs.
  split.
  - exists (map_from (encrypt_char (key self)) 0 msg), (encrypt_char (key self) p c).
    split; [apply encrypt_map_from; lia|].
    split; [now rewrite get_map_from, Hp|].
    destruct (is_letter c) eqn:Hl.
    + rewrite (encrypt_char_letter _ p c Hl).
      destruct (shiftForward_letter c _ Hl Hs) as (_ & _ & Hup).
      split; [now apply upper_is_letter|exact Hup].
    + rewrite (encrypt_char_other _ p c Hl). split; [exact Hl|].
      destruct (is_upper_letter c) eqn:E; [|reflexivity].
      apply upper_is_letter in E. congruence.
  - exists (map_from (decrypt_char (key self)) 0 msg), (decrypt_char (key self) p c).
    split; [apply decrypt_map_from; lia|].
    split; [now rewrite get_map_from, Hp|].
    destruct (is_letter c) eqn:Hl.
    + rewrite (decrypt_char_letter _ p c Hl).
      destruct (shiftBackward_letter c _ Hl Hs) as (_ & Hup).
      split; [now apply upper_is_letter|exact Hup].
    + rewrite (decrypt_char_other _ p c Hl). split; [exact Hl|].
      destruct (is_upper_letter c) eqn:E; [|reflexivity].
      apply upper_is_letter in E. congruence.
Qed.

(** X7: for a non-empty key of arbitrary bytes, a letter of the message is
    replaced, by [encrypt] and by [decrypt], by a character whose code lies
    between 40 and 90: possibly a sign or a digit, never a lower-case
    letter and never a byte above 'Z'. *)
Theorem letter_output_between_40_and_90
    (self : Vigenere) (msg : string) (p : nat) (c : char) :
  1 <= length (key self) ->
  get p msg = Some c ->
  is_letter c = true ->
  (exists out o, encrypt msg self = Ok (out, self) /\ get p out = Some o /\
                 (40 <= int_of_char o <= 90)%Z /\ is_lower_letter o = false) /\
  (exists out o, decrypt msg self = Ok (out, self) /\ get p out = Some o /\
                 (40 <= int_of_char o <= 90)%Z /\ is_lower_letter o = false).
Proof.
  intros Hk Hp Hl.
  set (kc := char_at (key self) (Nat.modulo p (length (key self)))).
  destruct (shift_operands_small c kc) as (_ & _ & Hf & Hb).
  assert (Hlow : forall o, (40 <= int_of_char o <= 90)%Z -> is_lower_letter o = false).
  { intros o Ho. unfold is_lower_letter.
    destruct (islower (int_of_char o)) eqn:E; [|reflexivity].
    apply islower_range in E. lia. }
  split.
  - exists (map_from (encrypt_char (key self)) 0 msg), (encrypt_char (key self) p c).
    split; [apply encrypt_map_from; lia|].
    split; [now rewrite get_map_from, Hp|].
    rewrite (encrypt_char_letter _ p c Hl).
    assert (R : (40 <= int_of_char (shiftForward c (key_shift (key self) p)) <= 90)%Z).
    { unfold shiftForward, key_shift. fold kc.
      rewrite int_of_char_of_int by lia. exact Hf. }
    split; [exact R|now apply Hlow].
  - exists (map_from (decrypt_char (key self)) 0 msg), (decrypt_char (key self) p c).
    split; [apply decrypt_map_from; lia|].
    split; [now rewrite get_map_from, Hp|].
    rewrite (decrypt_char_letter _ p c Hl).
    assert (R : (40 <= int_of_char (shiftBackward c (key_shift (key self) p)) <= 90)%Z).
    { unfold shiftBackward, key_shift. fold kc.
      rewrite int_of_char_of_int by lia. exact Hb. }
    split; [exact R|now apply Hlow].
Qed.

(** ** Further properties: blocks, key period, messages without letters *)

Lemma length_append (a b : string) :
  length (a ++ b) = length a + length b.
Proof.
  induction a as [|x a IH]; simpl; [reflexivity|].
  now rewrite IH.
Qed.

Lemma map_from_append (f : nat -> char -> char) (i : nat) (a b : string) :
  map_from f i (a ++ b) = map_from f i a ++ map_from f (i + length a) b.
Proof.
  revert i; induction a as [|x a IH]; intros i; simpl.
  - now rewrite Nat.add_0_r.
  - now rewrite IH, Nat.add_succ_comm.
Qed.

Lemma map_from_offset (f : nat -> char -> char) (m i : nat) (s : string) :
  (forall j c, f (m + j) c = f j c) ->
  map_from f (m + i) s = map_from f i s.
Proof.
  intros Hf. revert i; induction s as [|x s IH]; intros i; simpl; [reflexivity|].
  rewrite Hf. f_equal.
  rewrite <- (IH (S i)). now rewrite Nat.add_succ_r.
Qed.

Lemma key_shift_offset (k : string) (m j : nat) :
  Nat.modulo m (length k) = 0 -> key_shift k (m + j) = key_shift k j.
Proof.
  intros Hm. unfold key_shift.
  rewrite Nat.Div0.add_mod, Hm. cbn [Nat.add].
  now rewrite Nat.Div0.mod_mod.
Qed.

Lemma encrypt_char_offset (k : string) (m j : nat) (c : char) :
  Nat.modulo m (length k) = 0 -> encrypt_char k (m + j) c = encrypt_char k j c.
Proof.
  intros Hm. unfold encrypt_char. now rewrite key_shift_offset.
Qed.

Lemma decrypt_char_offset (k : string) (m j : nat) (c : char) :
  Nat.modulo m (length k) = 0 -> decrypt_char k (m + j) c = decrypt_char k j c.
Proof.
  intros Hm. unfold decrypt_char. now rewrite key_shift_offset.
Qed.

Lemma map_from_no_letter (f : nat -> char -> char) (i : nat) (msg : string) :
  (forall j c, is_letter c = false -> f j c = c) ->
  has_letter msg = false -> map_from f i msg = msg.
Proof.
  intros Hf. unfold has_letter.
  revert i; induction msg as [|c msg IH]; intros i Hm; simpl in *; [reflexivity|].
  apply orb_false_iff in Hm. destruct Hm as [Hc Hm].
  now rewrite (Hf i c Hc), IH.
Qed.

(** The key written twice selects the same characters as the key. *)
Lemma char_at_doubled (k : string) (i : nat) :
  0 < length k ->
  char_at (k ++ k) (Nat.modulo i (length (k ++ k)))
  = char_at k (Nat.modulo i (length k)).
Proof.
  intros Hk. rewrite length_append.
  set (n := length k) in *.
  replace (n + n) with (n * 2) by lia.
  rewrite Nat.Div0.mod_mul_r.
  assert (Hr : Nat.modulo i n < n) by (apply Nat.mod_upper_bound; lia).
  assert (Hq : Nat.modulo (i / n) 2 < 2) by (apply Nat.mod_upper_bound; lia).
  unfold char_at.
  destruct (Nat.modulo (i / n) 2) as [|[|q]]; [| |lia].
  - rewrite Nat.mul_0_r, Nat.add_0_r.
    now rewrite <- (append_correct1 k k (Nat.modulo i n) Hr).
  - rewrite Nat.mul_1_r.
    pose proof (append_correct2 k k (Nat.modulo i n)) as H2.
    fold n in H2. now rewrite <- H2.
Qed.

Lemma encrypt_char_doubled (k : string) (i : nat) (c : char) :
  0 < length k -> encrypt_char (k ++ k) i c = encrypt_char k i c.
Proof.
  intros Hk. unfold encrypt_char, key_shift. now rewrite char_at_doubled.
Qed.

Lemma decrypt_char_doubled (k : string) (i : nat) (c : char) :
  0 < length k -> decrypt_char (k ++ k) i c = decrypt_char k i c.
Proof.
  intros Hk. unfold decrypt_char, key_shift. now rewrite char_at_doubled.
Qed.

Lemma map_from_ext (f g : nat -> char -> char) (i : nat) (s : string) :
  (forall j c, f j c = g j c) -> map_from f i s = map_from g i s.
Proof.
  intros H. revert i; induction s as [|x s IH]; intros i; simpl; [reflexivity|].
  now rewrite H, IH.
Qed.

(** X8: for a non-empty key, a message cut at a multiple of the key length
    can be processed block by block: the encryption (decryption) of
    [a ++ b] is the encryption (decryption) of [a] followed by that of
    [b]. *)
Theorem encrypt_decrypt_by_blocks (self : Vigenere) (a b : string) :
  1 <= length (key self) ->
  Nat.modulo (length a) (length (key self)) = 0 ->
  (exists ea eb, encrypt a self = Ok (ea, self) /\
                 encrypt b self = Ok (eb, self) /\
                 encrypt (a ++ b) self = Ok (ea ++ eb, self)) /\
  (exists da db, decrypt a self = Ok (da, self) /\
                 decrypt b self = Ok (db, self) /\
                 decrypt (a ++ b) self = Ok (da ++ db, self)).
Proof.
  intros Hk Ha. split.
  - do 2 eexists.
    split; [apply encrypt_map_from; lia|].
    split; [apply encrypt_map_from; lia|].
    rewrite encrypt_map_from by lia.
    rewrite map_from_append. cbn [Nat.add].
    rewrite <- (Nat.add_0_r (length a)).
    rewrite map_from_offset; [reflexivity|].
    intros j c. now apply encrypt_char_offset.
  - do 2 eexists.
    split; [apply decrypt_map_from; lia|].
    split; [apply decrypt_map_from; lia|].
    rewrite decrypt_map_from by lia.
    rewrite map_from_append. cbn [Nat.add].
    rewrite <- (Nat.add_0_r (length a)).
    rewrite map_from_offset; [reflexivity|].
    intros j c. now apply decrypt_char_offset.
Qed.

(** X9: for a non-empty key, two equal characters of the message that lie
    one key length apart give two equal characters of the output, for
    [encrypt] and for [decrypt]: the cipher repeats with the period of the
    key, counted in characters of the whole message. *)
Theorem equal_characters_one_key_length_apart
    (self : Vigenere) (msg : string) (p : nat) (c : char) :
  1 <= length (key self) ->
  get p msg = Some c ->
  get (p + length (key self)) msg = Some c ->
  (exists out o, encrypt msg self = Ok (out, self) /\
                 get p out = Some o /\
                 get (p + length (key self)) out = Some o) /\
  (exists out o, decrypt msg self = Ok (out, self) /\
                 get p out = Some o /\
                 get (p + length (key self)) out = Some o).
Proof.
  intros Hk Hp Hq.
  assert (Hn : Nat.modulo (length (key self)) (length (key self)) = 0)
    by apply Nat.Div0.mod_same.
  split.
  - exists (map_from (encrypt_char (key self)) 0 msg), (encrypt_char (key self) p c).
    split; [apply encrypt_map_from; lia|].
    rewrite !get_map_from, Hp, Hq. cbn [Nat.add option_map].
    split; [reflexivity|].
    rewrite (Nat.add_comm p). now rewrite encrypt_char_offset.
  - exists (map_from (decrypt_char (key self)) 0 msg), (decrypt_char (key self) p c).
    split; [apply decrypt_map_from; lia|].
    rewrite !get_map_from, Hp, Hq. cbn [Nat.add option_map].
    split; [reflexivity|].
    rewrite (Nat.add_comm p). now rewrite decrypt_char_offset.
Qed.

(** X10: a message without letters is returned unchanged by [encrypt] and
    by [decrypt] under every key, the empty key included, and
    [isEncrypted] then compares its two arguments. *)
Theorem no_letter_message_unchanged (self : Vigenere) (msg e : string) :
  has_letter msg = false ->
  encrypt msg self = Ok (msg, self) /\
  decrypt msg self = Ok (msg, self) /\
  isEncrypted e msg self = Ok (String.eqb e msg, self).
Proof.
  intros Hm.
  assert (E : encrypt msg self = Ok (msg, self) /\ decrypt msg self = Ok (msg, self)).
  { destruct (key self) as [|x k] eqn:Ek.
    - pose proof (encrypt_loop_empty_key "" msg "") as He.
      pose proof (decrypt_loop_empty_key "" msg "") as Hd.
      cbn [append length] in He, Hd. rewrite Hm in He, Hd.
      unfold encrypt, decrypt. rewrite Ek. cbn [length].
      now rewrite He, Hd.
    - rewrite encrypt_map_from, decrypt_map_from by (rewrite Ek; simpl; lia).
      rewrite !map_from_no_letter; try assumption; [tauto| |].
      + intros j c. apply decrypt_char_other.
      + intros j c. apply encrypt_char_other. }
  destruct E as [E1 E2]. repeat split; try assumption.
  unfold isEncrypted. now rewrite E1.
Qed.

(** X11: writing a non-empty key twice in a row does not change the cipher:
    [encrypt] and [decrypt] return the same text under [k] and under
    [k ++ k]. *)
Theorem doubled_key_same_cipher (k msg : string) :
  1 <= length k ->
  (exists e, encrypt msg (Vigenere_new k) = Ok (e, Vigenere_new k) /\
             encrypt msg (Vigenere_new (k ++ k)) = Ok (e, Vigenere_new (k ++ k))) /\
  (exists d, decrypt msg (Vigenere_new k) = Ok (d, Vigenere_new k) /\
             decrypt msg (Vigenere_new (k ++ k)) = Ok (d, Vigenere_new (k ++ k))).
Proof.
  intros Hk.
  assert (Hkk : 0 < length (key (Vigenere_new (k ++ k))))
    by (simpl; rewrite length_append; lia).
  split.
  - eexists. split; [apply encrypt_map_from; simpl; lia|].
    rewrite (encrypt_map_from msg _ Hkk). cbn [key Vigenere_new].
    f_equal. f_equal. apply map_from_ext.
    intros j c. apply encrypt_char_doubled. lia.
  - eexists. split; [apply decrypt_map_from; simpl; lia|].
    rewrite (decrypt_map_from msg _ Hkk). cbn [key Vigenere_new].
    f_equal. f_equal. apply map_from_ext.
    intros j c. apply decrypt_char_doubled. lia.
Qed.

End Engine.

(** ** Scenarios, on either kind of [char] *)

(** C8: with the key "KEY", [encrypt "HELLO"] is "RIJVS", [decrypt "RIJVS"]
    is "HELLO" and [isEncrypted "RIJVS" "HELLO"] is true. *)
Theorem key_KEY_scenarios (sgn : signedness) :
  let engine := Vigenere_new "KEY" in
  encrypt sgn "HELLO" engine = Ok ("RIJVS", engine) /\
  decrypt sgn "RIJVS" engine = Ok ("HELLO", engine) /\
  isEncrypted sgn "RIJVS" "HELLO" engine = Ok (true, engine).
Proof.
  destruct sgn; repeat split.
Qed.

(** C9: [setKey] stores the new key, and the calls that follow behave as on
    an engine constructed with it; with the key "A", stored by [setKey] or
    given at construction, [encrypt] returns every message of capital
    letters unchanged, "ABC" among them. *)
Theorem setKey_A_identity
    (sgn : signedness) (self : Vigenere) (newKey m e msg : string) :
  all_upper sgn msg = true ->
  setKey newKey self = Ok (tt, Vigenere_new newKey) /\
  and_then (setKey newKey) (fun _ => encrypt sgn m) self
    = encrypt sgn m (Vigenere_new newKey) /\
  and_then (setKey newKey) (fun _ => decrypt sgn m) self
    = decrypt sgn m (Vigenere_new newKey) /\
  and_then (setKey newKey) (fun _ => isEncrypted sgn e m) self
    = isEncrypted sgn e m (Vigenere_new newKey) /\
  and_then (setKey "A") (fun _ => encrypt sgn msg) self
    = Ok (msg, Vigenere_new "A") /\
  encrypt sgn msg (Vigenere_new "A") = Ok (msg, Vigenere_new "A") /\
  encrypt sgn "ABC" (Vigenere_new "A") = Ok ("ABC", Vigenere_new "A").
Proof.
  intros Hm.
  pose proof (encrypt_key_A sgn msg Hm) as E.
  repeat split; try exact E.
  destruct sgn; reflexivity.
Qed.

(** ** The theorems at concrete inputs *)

Lemma key_index_is_message_position_witness :
  1 <= length "KEY" /\
  get 3 "HI THERE" = Some "T"%char /\
  is_letter Signed "T"%char = true /\
  rem_size_t 3 (length "KEY") = Ok 0 /\
  (exists out,
     encrypt Signed "HI THERE" (Vigenere_new "KEY") = Ok (out, Vigenere_new "KEY") /\
     get 3 out = Some "D"%char) /\
  (exists out,
     decrypt Signed "HI THERE" (Vigenere_new "KEY") = Ok (out, Vigenere_new "KEY") /\
     get 3 out = Some "J"%char).
Proof.
  assert (H1 : 1 <= length "KEY") by (simpl; repeat constructor).
  assert (H2 : get 3 "HI THERE" = Some "T"%char) by reflexivity.
  assert (H3 : is_letter Signed "T"%char = true) by reflexivity.
  destruct (key_index_is_message_position Signed "KEY" "HI THERE" 3 "T"%char H1 H2 H3)
    as (A & _ & B & C).
  repeat split; assumption.
Defined.

Lemma decrypt_encrypt_roundtrip_witness :
  1 <= length (key (Vigenere_new "KEY")) /\
  all_upper Signed (key (Vigenere_new "KEY")) = true /\
  letters_upper Signed "ATTACK AT 0600!" = true /\
  exists e,
    encrypt Signed "ATTACK AT 0600!" (Vigenere_new "KEY") = Ok (e, Vigenere_new "KEY") /\
    decrypt Signed e (Vigenere_new "KEY") = Ok ("ATTACK AT 0600!", Vigenere_new "KEY").
Proof.
  assert (H1 : 1 <= length (key (Vigenere_new "KEY"))) by (simpl; repeat constructor).
  assert (H2 : all_upper Signed (key (Vigenere_new "KEY")) = true) by reflexivity.
  assert (H3 : letters_upper Signed "ATTACK AT 0600!" = true) by reflexivity.
  repeat split; try assumption.
  exact (decrypt_encrypt_roundtrip Signed (Vigenere_new "KEY") "ATTACK AT 0600!" H1 H2 H3).
Defined.

Lemma isEncrypted_iff_encrypt_witness :
  1 <= length (key (Vigenere_new "KEY")) /\
  exists e,
    encrypt Unsigned "HELLO" (Vigenere_new "KEY") = Ok (e, Vigenere_new "KEY") /\
    (isEncrypted Unsigned "RIJVT" "HELLO" (Vigenere_new "KEY")
       = Ok (true, Vigenere_new "KEY") <-> "RIJVT" = e) /\
    ("RIJVT" <> e ->
     isEncrypted Unsigned "RIJVT" "HELLO" (Vigenere_new "KEY")
       = Ok (false, Vigenere_new "KEY")) /\
    isEncrypted Unsigned e "HELLO" (Vigenere_new "KEY") = Ok (true, Vigenere_new "KEY").
Proof.
  assert (H1 : 1 <= length (key (Vigenere_new "KEY"))) by (simpl; repeat constructor).
  split; [exact H1|].
  exact (isEncrypted_iff_encrypt Unsigned (Vigenere_new "KEY") "RIJVT" "HELLO" H1).
Defined.

Lemma non_letters_pass_through_witness :
  1 <= length (key (Vigenere_new "LEMON")) /\
  get 2 "7 + x" = Some "+"%char /\
  is_letter Signed "+"%char = false /\
  (exists out,
     encrypt Signed "7 + x" (Vigenere_new "LEMON") = Ok (out, Vigenere_new "LEMON") /\
     get 2 out = Some "+"%char) /\
  (exists out,
     decrypt Signed "7 + x" (Vigenere_new "LEMON") = Ok (out, Vigenere_new "LEMON") /\
     get 2 out = Some "+"%char).
Proof.
  assert (H1 : 1 <= length (key (Vigenere_new "LEMON"))) by (simpl; repeat constructor).
  assert (H2 : get 2 "7 + x" = Some "+"%char) by reflexivity.
  assert (H3 : is_letter Signed "+"%char = false) by reflexivity.
  repeat split; try assumption;
    apply (non_letters_pass_through Signed (Vigenere_new "LEMON") "7 + x" 2 "+"%char H1 H2 H3).
Defined.

Lemma encrypt_decrypt_preserve_length_witness :
  1 <= length (key (Vigenere_new "K")) /\
  (exists out,
     encrypt Signed "Hi, there" (Vigenere_new "K") = Ok (out, Vigenere_new "K") /\
     length out = 9) /\
  (exists out,
     decrypt Signed "Hi, there" (Vigenere_new "K") = Ok (out, Vigenere_new "K") /\
     length out = 9) /\
  encrypt Signed "" (Vigenere_new "K") = Ok ("", Vigenere_new "K") /\
  decrypt Signed "" (Vigenere_new "K") = Ok ("", Vigenere_new "K").
Proof.
  assert (H1 : 1 <= length (key (Vigenere_new "K"))) by (simpl; repeat constructor).
  split; [exact H1|].
  exact (encrypt_decrypt_preserve_length Signed (Vigenere_new "K") "Hi, there" H1).
Defined.

Lemma empty_key_faults_iff_letter_witness :
  length (key (Vigenere_new "")) = 0 /\
  encrypt Signed "42 a" (Vigenere_new "") = Fault ModuloByZero /\
  decrypt Signed "42 a" (Vigenere_new "") = Fault ModuloByZero /\
  isEncrypted Signed "42 a" "42 a" (Vigenere_new "") = Fault ModuloByZero.
Proof.
  assert (H1 : length (key (Vigenere_new "")) = 0) by reflexivity.
  split; [exact H1|].
  exact (empty_key_faults_iff_letter Signed (Vigenere_new "") "42 a" "42 a" H1).
Defined.

Lemma lowercase_shifted_as_uppercase_witness :
  1 <= length (key (Vigenere_new "KEY")) /\
  all_upper Unsigned (key (Vigenere_new "KEY")) = true /\
  get 1 "hello" = Some "e"%char /\
  is_lower_letter Unsigned "e"%char = true /\
  exists out o,
    encrypt Unsigned "hello" (Vigenere_new "KEY") = Ok (out, Vigenere_new "KEY") /\
    get 1 out = Some o /\
    o = "O"%char.
Proof.
  assert (H1 : 1 <= length (key (Vigenere_new "KEY"))) by (simpl; repeat constructor).
  assert (H2 : all_upper Unsigned (key (Vigenere_new "KEY")) = true) by reflexivity.
  assert (H3 : get 1 "hello" = Some "e"%char) by reflexivity.
  assert (H4 : is_lower_letter Unsigned "e"%char = true) by reflexivity.
  repeat split; try assumption.
  destruct (lowercase_shifted_as_uppercase Unsigned (Vigenere_new "KEY") "hello" 1 "e"%char
              H1 H2 H3 H4) as (_ & _ & out & o & A & B & C & _).
  exists out, o. repeat split; assumption.
Defined.

Lemma setKey_A_identity_witness :
  all_upper Signed "VIGENERE" = true /\
  and_then (setKey "A") (fun _ => encrypt Signed "VIGENERE") (Vigenere_new "KEY")
    = Ok ("VIGENERE", Vigenere_new "A") /\
  and_then (setKey "KEY") (fun _ => encrypt Signed "HELLO") (Vigenere_new "A")
    = encrypt Signed "HELLO" (Vigenere_new "KEY").
Proof.
  assert (H1 : all_upper Signed "VIGENERE" = true) by reflexivity.
  destruct (setKey_A_identity Signed (Vigenere_new "KEY") "KEY" "HELLO" "RIJVS"
              "VIGENERE" H1) as (_ & _ & _ & _ & A & _).
  destruct (setKey_A_identity Signed (Vigenere_new "A") "KEY" "HELLO" "RIJVS"
              "VIGENERE" H1) as (_ & B & _).
  repeat split; assumption.
Defined.

Lemma queries_leave_key_unchanged_witness :
  encrypt Signed "HELLO" (Vigenere_new "KEY") = Ok ("RIJVS", Vigenere_new "KEY") /\
  key (Vigenere_new "KEY") = "KEY".
Proof.
  assert (H1 : encrypt Signed "HELLO" (Vigenere_new "KEY")
               = Ok ("RIJVS", Vigenere_new "KEY")) by reflexivity.
  split; [exact H1|].
  destruct (queries_leave_key_unchanged Signed (Vigenere_new "KEY") "HELLO" "RIJVS")
    as (A & _).
  exact (A "RIJVS" (Vigenere_new "KEY") H1).
Defined.

(** ** Where the specification and the code part *)

(** C1 as the specification states it fails: in "  A" under the key "ABC"
    the letter sits at position 2, after two blanks.  The code shifts it by
    [key[2]] = 'C' and returns "  C"; a cursor that counts letters only
    would select [key[1]] (count up to and including the letter) or
    [key[0]] (count before it). *)
Lemma key_cursor_counts_letters_refuted :
  encrypt Signed "  A" (Vigenere_new "ABC") = Ok ("  C", Vigenere_new "ABC") /\
  decrypt Signed "  C" (Vigenere_new "ABC") = Ok ("  A", Vigenere_new "ABC") /\
  Nat.modulo (letters_upto Signed "  A" 2) (length "ABC") = 1 /\
  Nat.modulo (letters_before Signed "  A" 2) (length "ABC") = 0 /\
  ~ key_cursor_law Signed (letters_upto Signed) /\
  ~ key_cursor_law Signed (letters_before Signed).
Proof.
  repeat split.
  - intros H.
    destruct (H "ABC" "  A" 2 "A"%char) as ((out & E & G) & _);
      [simpl; repeat constructor | reflexivity | reflexivity |].
    vm_compute in E. injection E as <-. vm_compute in G. discriminate.
  - intros H.
    destruct (H "ABC" "  A" 2 "A"%char) as ((out & E & G) & _);
      [simpl; repeat constructor | reflexivity | reflexivity |].
    vm_compute in E. injection E as <-. vm_compute in G. discriminate.
Qed.

(** C6 as the specification states it fails: with an empty key, a message
    without letters never reaches the remainder, and the three operations
    return normally. *)
Lemma empty_key_no_fault_without_letters :
  encrypt Signed "" (Vigenere_new "") = Ok ("", Vigenere_new "") /\
  encrypt Signed "12:30" (Vigenere_new "") = Ok ("12:30", Vigenere_new "") /\
  decrypt Signed "12:30" (Vigenere_new "") = Ok ("12:30", Vigenere_new "") /\
  isEncrypted Signed "12:30" "12:30" (Vigenere_new "") = Ok (true, Vigenere_new "") /\
  ~ (forall msg, encrypt Signed msg (Vigenere_new "") = Fault ModuloByZero) /\
  ~ (forall msg, decrypt Signed msg (Vigenere_new "") = Fault ModuloByZero) /\
  ~ (forall e msg, isEncrypted Signed e msg (Vigenere_new "") = Fault ModuloByZero).
Proof.
  repeat split.
  - intros H. specialize (H ""). discriminate H.
  - intros H. specialize (H ""). discriminate H.
  - intros H. specialize (H "" ""). discriminate H.
Qed.

(** ** Signed and unsigned [char] *)

Lemma is_ascii_range (c : char) :
  is_ascii c = true <-> (Z.of_N (N_of_ascii c) < 128)%Z.
Proof.
  unfold is_ascii. rewrite N.ltb_lt. lia.
Qed.

Lemma int_of_char_ascii (c : char) :
  is_ascii c = true -> int_of_char Signed c = int_of_char Unsigned c.
Proof.
  intros H. apply is_ascii_range in H. unfold int_of_char.
  destruct (Z.leb_spec 128 (Z.of_N (N_of_ascii c))); [lia|reflexivity].
Qed.

Lemma letter_is_ascii (c : char) :
  isalpha (int_of_char Unsigned c) = true -> is_ascii c = true.
Proof.
  intros H. apply isalpha_range in H. apply is_ascii_range.
  unfold int_of_char in H. lia.
Qed.

Lemma isalpha_either_sign (c : char) :
  isalpha (int_of_char Signed c) = isalpha (int_of_char Unsigned c).
Proof.
  destruct (is_ascii c) eqn:E.
  - now rewrite int_of_char_ascii.
  - destruct (isalpha (int_of_char Unsigned c)) eqn:U.
    + apply letter_is_ascii in U. congruence.
    + destruct (isalpha (int_of_char Signed c)) eqn:S; [|reflexivity].
      apply isalpha_range in S.
      assert (Hn : ~ (Z.of_N (N_of_ascii c) < 128)%Z)
        by (rewrite <- is_ascii_range; congruence).
      pose proof (N_of_ascii_small c).
      unfold int_of_char in S.
      destruct (Z.leb_spec 128 (Z.of_N (N_of_ascii c))); lia.
Qed.

Lemma subscript_ascii (k : string) (idx : nat) (kc : char) :
  all_ascii k = true -> subscript k idx = Ok kc -> is_ascii kc = true.
Proof.
  intros Hk. unfold subscript.
  destruct (get idx k) as [c|] eqn:G.
  - intros [= <-]. exact (string_forall_get _ _ _ _ Hk G).
  - destruct (Nat.eqb idx (length k)); [|discriminate].
    now intros [= <-].
Qed.

Lemma shiftForward_either_sign (c : char) (n : Z) :
  is_ascii c = true -> shiftForward Signed c n = shiftForward Unsigned c n.
Proof.
  intros H. unfold shiftForward. now rewrite int_of_char_ascii.
Qed.

Lemma shiftBackward_either_sign (c : char) (n : Z) :
  is_ascii c = true -> shiftBackward Signed c n = shiftBackward Unsigned c n.
Proof.
  intros H. unfold shiftBackward. now rewrite int_of_char_ascii.
Qed.

Lemma encrypt_loop_either_sign (k msg : string) (keyLength todo i : nat) (acc : string) :
  all_ascii k = true ->
  encrypt_loop Signed k msg keyLength todo i acc
  = encrypt_loop Unsigned k msg keyLength todo i acc.
Proof.
  intros Hk. revert i acc.
  induction todo as [|todo IH]; intros i acc; [reflexivity|].
  cbn [encrypt_loop].
  destruct (subscript msg i) as [c|f]; [|reflexivity]. cbn [bind].
  rewrite isalpha_either_sign.
  destruct (isalpha (int_of_char Unsigned c)) eqn:Hc; [|apply IH].
  destruct (rem_size_t i keyLength) as [idx|f]; [|reflexivity]. cbn [bind].
  destruct (subscript k idx) as [kc|f] eqn:Hs; [|reflexivity]. cbn [bind].
  rewrite (int_of_char_ascii kc (subscript_ascii k idx kc Hk Hs)).
  rewrite (shiftForward_either_sign c _ (letter_is_ascii c Hc)).
  apply IH.
Qed.

Lemma decrypt_loop_either_sign (k msg : string) (keyLength todo i : nat) (acc : string) :
  all_ascii k = true ->
  decrypt_loop Signed k msg keyLength todo i acc
  = decrypt_loop Unsigned k msg keyLength todo i acc.
Proof.
  intros Hk. revert i acc.
  induction todo as [|todo IH]; intros i acc; [reflexivity|].
  cbn [decrypt_loop].
  destruct (subscript msg i) as [c|f]; [|reflexivity]. cbn [bind].
  rewrite isalpha_either_sign.
  destruct (isalpha (int_of_char Unsigned c)) eqn:Hc; [|apply IH].
  destruct (rem_size_t i keyLength) as [idx|f]; [|reflexivity]. cbn [bind].
  destruct (subscript k idx) as [kc|f] eqn:Hs; [|reflexivity]. cbn [bind].
  rewrite (int_of_char_ascii kc (subscript_ascii k idx kc Hk Hs)).
  rewrite (shiftBackward_either_sign c _ (letter_is_ascii c Hc)).
  apply IH.
Qed.

(** X12: when every byte of the key is below 128, the three operations give
    the same result (text or fault) whether the implementation's [char] is
    signed or unsigned, on every message, bytes above 127 included. *)
Theorem char_sign_irrelevant_for_ascii_key (self : Vigenere) (msg e : string) :
  all_ascii (key self) = true ->
  encrypt Signed msg self = encrypt Unsigned msg self /\
  decrypt Signed msg self = decrypt Unsigned msg self /\
  isEncrypted Signed e msg self = isEncrypted Unsigned e msg self.
Proof.
  intros Hk.
  assert (E : encrypt Signed msg self = encrypt Unsigned msg self).
  { unfold encrypt. now rewrite encrypt_loop_either_sign. }
  repeat split.
  - exact E.
  - unfold decrypt. now rewrite decrypt_loop_either_sign.
  - unfold isEncrypted. now rewrite E.
Qed.

(** ** The keys under which the round trip holds *)

Lemma recovers_table (sgn : signedness) (kc : char) :
  string_forall (recovers sgn kc) capitals = key_char_in_range kc.
Proof.
  destruct sgn; destruct kc as [[] [] [] [] [] [] [] []]; vm_compute; reflexivity.
Qed.

Lemma capitals_complete (sgn : signedness) (x : char) :
  is_upper_letter sgn x = string_exists (Ascii.eqb x) capitals.
Proof.
  destruct sgn; destruct x as [[] [] [] [] [] [] [] []]; vm_compute; reflexivity.
Qed.

Lemma string_forall_member (q : char -> bool) (s : string) (x : char) :
  string_forall q s = true -> string_exists (Ascii.eqb x) s = true -> q x = true.
Proof.
  induction s as [|c s IH]; simpl; [discriminate|].
  intros Hq Hx. apply andb_true_iff in Hq. destruct Hq as [Hc Hs].
  apply orb_true_iff in Hx. destruct Hx as [Hx|Hx].
  - apply Ascii.eqb_eq in Hx. now subst.
  - now apply IH.
Qed.

Lemma string_forall_fails (q : char -> bool) (s : string) :
  string_forall q s = false ->
  exists p x, get p s = Some x /\ q x = false.
Proof.
  induction s as [|c s IH]; simpl; [discriminate|].
  intros H. destruct (q c) eqn:Hc.
  - destruct (IH H) as (p & x & Hp & Hx). now exists (S p), x.
  - now exists 0, c.
Qed.

Lemma get_member (s : string) (p : nat) (x : char) :
  get p s = Some x -> string_exists (Ascii.eqb x) s = true.
Proof.
  revert p; induction s as [|c s IH]; intros p Hp; simpl in *; [discriminate|].
  destruct p as [|p].
  - injection Hp as ->. now rewrite Ascii.eqb_refl.
  - rewrite (IH p Hp). apply orb_true_r.
Qed.

Lemma length_blanks (n : nat) : length (blanks n) = n.
Proof.
  induction n as [|n IH]; simpl; [reflexivity|now rewrite IH].
Qed.

Lemma letters_upper_blanks (sgn : signedness) (n : nat) (x : char) :
  is_upper_letter sgn x = true ->
  letters_upper sgn (blanks n ++ String x "") = true.
Proof.
  intros Hx. unfold letters_upper.
  induction n as [|n IH]; simpl.
  - rewrite Hx. now destruct (is_letter sgn x).
  - rewrite IH. now destruct sgn.
Qed.

(** An iteration at position [i] only depends on the key character that
    the position selects. *)
Lemma key_char_selected (sgn : signedness) (k : string) (i : nat) (kc x : char) :
  get (Nat.modulo i (length k)) k = Some kc ->
  decrypt_char sgn k i (encrypt_char sgn k i x)
  = decrypt_char sgn (String kc "") 0 (encrypt_char sgn (String kc "") 0 x).
Proof.
  intros Hk. unfold decrypt_char, encrypt_char, key_shift, char_at.
  now rewrite Hk.
Qed.

Lemma roundtrip_in_range_key (sgn : signedness) (k : string) (i : nat) (msg : string) :
  0 < length k ->
  string_forall key_char_in_range k = true ->
  letters_upper sgn msg = true ->
  map_from (decrypt_char sgn k) i (map_from (encrypt_char sgn k) i msg) = msg.
Proof.
  intros Hk Hr. revert i.
  induction msg as [|c msg IH]; intros i Hm; simpl; [reflexivity|].
  unfold letters_upper in Hm. simpl in Hm.
  apply andb_true_iff in Hm. destruct Hm as [Hc Hm].
  rewrite (IH (S i) Hm). f_equal.
  destruct (is_letter sgn c) eqn:Hl; simpl in Hc.
  - assert (Hi : Nat.modulo i (length k) < length k)
      by (apply Nat.mod_upper_bound; lia).
    pose proof (get_in_range k _ Hi) as Hg.
    rewrite (key_char_selected sgn k i _ c Hg).
    pose proof (string_forall_get _ _ _ _ Hr Hg) as Hkc.
    rewrite <- (recovers_table sgn) in Hkc.
    rewrite capitals_complete in Hc.
    pose proof (string_forall_member _ _ _ Hkc Hc) as R.
    now apply Ascii.eqb_eq in R.
  - rewrite (encrypt_char_other sgn k i c Hl).
    now apply decrypt_char_other.
Qed.

(** X13: the keys for which the round trip law holds.  For a non-empty
    key, [decrypt (encrypt m)] is [m] for every message [m] without
    lower-case letters if and only if every byte of the key lies between
    'A' and '[' (shifts 0 to 26); any other key byte, a lower-case letter
    for one, loses some message of capitals. *)
Theorem roundtrip_iff_key_in_range (sgn : signedness) (k : string) :
  1 <= length k ->
  (forall msg, letters_upper sgn msg = true ->
     exists e, encrypt sgn msg (Vigenere_new k) = Ok (e, Vigenere_new k) /\
               decrypt sgn e (Vigenere_new k) = Ok (msg, Vigenere_new k))
  <-> string_forall key_char_in_range k = true.
Proof.
  intros Hk.
  assert (Hk' : 0 < length (key (Vigenere_new k))) by (simpl; lia).
  split.
  - intros H.
    destruct (string_forall key_char_in_range k) eqn:E; [reflexivity|exfalso].
    destruct (string_forall_fails _ _ E) as (j & kc & Hj & Hkc).
    rewrite <- (recovers_table sgn) in Hkc.
    destruct (string_forall_fails _ _ Hkc) as (q & x & Hq & Hx).
    assert (Hup : is_upper_letter sgn x = true)
      by (rewrite capitals_complete; exact (get_member _ _ _ Hq)).
    destruct (H _ (letters_upper_blanks sgn j x Hup)) as (e & He & Hd).
    rewrite (encrypt_map_from sgn _ _ Hk') in He. injection He as <-.
    rewrite (decrypt_map_from sgn _ _ Hk') in Hd. injection Hd as Hd.
    cbn [key Vigenere_new] in Hd.
    apply (f_equal (get j)) in Hd.
    rewrite !get_map_from in Hd.
    pose proof (get_middle (blanks j) "" x) as Hg.
    rewrite length_blanks in Hg. rewrite Hg in Hd.
    cbn [option_map Nat.add] in Hd. injection Hd as Hd.
    pose proof (get_some_in_range _ _ _ Hj) as Hlt.
    rewrite (key_char_selected sgn k j kc x) in Hd
      by (now rewrite Nat.mod_small).
    unfold recovers in Hx. apply Ascii.eqb_neq in Hx. contradiction.
  - intros Hr msg Hm.
    exists (map_from (encrypt_char sgn k) 0 msg).
    split; [apply (encrypt_map_from sgn _ _ Hk')|].
    rewrite (decrypt_map_from sgn _ _ Hk'). cbn [key Vigenere_new].
    now rewrite roundtrip_in_range_key by (assumption || lia).
Qed.

(** ** The further properties at concrete inputs *)

Lemma encrypt_after_decrypt_roundtrip_witness :
  1 <= length (key (Vigenere_new "LEMON")) /\
  all_upper Signed (key (Vigenere_new "LEMON")) = true /\
  letters_upper Signed "LXFOPV EF RNHR" = true /\
  exists d,
    decrypt Signed "LXFOPV EF RNHR" (Vigenere_new "LEMON") = Ok (d, Vigenere_new "LEMON") /\
    encrypt Signed d (Vigenere_new "LEMON") = Ok ("LXFOPV EF RNHR", Vigenere_new "LEMON").
Proof.
  assert (H1 : 1 <= length (key (Vigenere_new "LEMON"))) by (simpl; repeat constructor).
  assert (H2 : all_upper Signed (key (Vigenere_new "LEMON")) = true) by reflexivity.
  assert (H3 : letters_upper Signed "LXFOPV EF RNHR" = true) by reflexivity.
  repeat split; try assumption.
  exact (encrypt_after_decrypt_roundtrip Signed (Vigenere_new "LEMON") "LXFOPV EF RNHR" H1 H2 H3).
Defined.

Lemma roundtrip_folds_lowercase_witness :
  1 <= length (key (Vigenere_new "KEY")) /\
  all_upper Signed (key (Vigenere_new "KEY")) = true /\
  exists e,
    encrypt Signed "Hello" (Vigenere_new "KEY") = Ok (e, Vigenere_new "KEY") /\
    decrypt Signed e (Vigenere_new "KEY") = Ok ("HKRRU", Vigenere_new "KEY").
Proof.
  assert (H1 : 1 <= length (key (Vigenere_new "KEY"))) by (simpl; repeat constructor).
  assert (H2 : all_upper Signed (key (Vigenere_new "KEY")) = true) by reflexivity.
  repeat split; try assumption.
  destruct (roundtrip_folds_lowercase Signed (Vigenere_new "KEY") "Hello" H1 H2)
    as (e & A & B & _).
  exists e. split; assumption.
Defined.

Lemma encrypt_ignores_lowercase_fold_witness :
  1 <= length (key (Vigenere_new "KEY")) /\
  all_upper Unsigned (key (Vigenere_new "KEY")) = true /\
  exists e,
    encrypt Unsigned "Hello" (Vigenere_new "KEY") = Ok (e, Vigenere_new "KEY") /\
    encrypt Unsigned "HKRRU" (Vigenere_new "KEY") = Ok (e, Vigenere_new "KEY").
Proof.
  assert (H1 : 1 <= length (key (Vigenere_new "KEY"))) by (simpl; repeat constructor).
  assert (H2 : all_upper Unsigned (key (Vigenere_new "KEY")) = true) by reflexivity.
  repeat split; try assumption.
  exact (encrypt_ignores_lowercase_fold Unsigned (Vigenere_new "KEY") "Hello" H1 H2).
Defined.

Lemma isEncrypted_agrees_with_decrypt_witness :
  1 <= length (key (Vigenere_new "KEY")) /\
  all_upper Signed (key (Vigenere_new "KEY")) = true /\
  letters_upper Signed "RIJVS" = true /\
  letters_upper Signed "HELLO" = true /\
  (isEncrypted Signed "RIJVS" "HELLO" (Vigenere_new "KEY") = Ok (true, Vigenere_new "KEY")
   <-> decrypt Signed "RIJVS" (Vigenere_new "KEY") = Ok ("HELLO", Vigenere_new "KEY")).
Proof.
  assert (H1 : 1 <= length (key (Vigenere_new "KEY"))) by (simpl; repeat constructor).
  assert (H2 : all_upper Signed (key (Vigenere_new "KEY")) = true) by reflexivity.
  assert (H3 : letters_upper Signed "RIJVS" = true) by reflexivity.
  assert (H4 : letters_upper Signed "HELLO" = true) by reflexivity.
  split; [exact H1|]. split; [exact H2|]. split; [exact H3|]. split; [exact H4|].
  exact (isEncrypted_agrees_with_decrypt Signed (Vigenere_new "KEY") "RIJVS" "HELLO"
           H1 H2 H3 H4).
Defined.

Lemma isEncrypted_false_on_length_mismatch_witness :
  1 <= length (key (Vigenere_new "KEY")) /\
  length "RIJV" <> length "HELLO" /\
  isEncrypted Signed "RIJV" "HELLO" (Vigenere_new "KEY") = Ok (false, Vigenere_new "KEY").
Proof.
  assert (H1 : 1 <= length (key (Vigenere_new "KEY"))) by (simpl; repeat constructor).
  assert (H2 : length "RIJV" <> length "HELLO") by (simpl; discriminate).
  split; [exact H1|]. split; [exact H2|].
  exact (isEncrypted_false_on_length_mismatch Signed (Vigenere_new "KEY") "RIJV" "HELLO"
           H1 H2).
Defined.

Lemma letters_become_capitals_witness :
  1 <= length (key (Vigenere_new "KEY")) /\
  all_upper Signed (key (Vigenere_new "KEY")) = true /\
  get 1 "hello" = Some "e"%char /\
  exists out o,
    encrypt Signed "hello" (Vigenere_new "KEY") = Ok (out, Vigenere_new "KEY") /\
    get 1 out = Some o /\
    is_upper_letter Signed o = true.
Proof.
  assert (H1 : 1 <= length (key (Vigenere_new "KEY"))) by (simpl; repeat constructor).
  assert (H2 : all_upper Signed (key (Vigenere_new "KEY")) = true) by reflexivity.
  assert (H3 : get 1 "hello" = Some "e"%char) by reflexivity.
  repeat split; try assumption.
  destruct (letters_become_capitals Signed (Vigenere_new "KEY") "hello" 1 "e"%char
              H1 H2 H3) as ((out & o & A & B & _ & C) & _).
  exists out, o. repeat split; assumption.
Defined.

Lemma letter_output_between_40_and_90_witness :
  1 <= length (key (Vigenere_new "(")) /\
  get 0 "A" = Some "A"%char /\
  is_letter Signed "A"%char = true /\
  encrypt Signed "A" (Vigenere_new "(") = Ok ("(", Vigenere_new "(") /\
  exists out o,
    encrypt Signed "A" (Vigenere_new "(") = Ok (out, Vigenere_new "(") /\
    get 0 out = Some o /\
    (40 <= int_of_char Signed o <= 90)%Z.
Proof.
  assert (H1 : 1 <= length (key (Vigenere_new "("))) by (simpl; repeat constructor).
  assert (H2 : get 0 "A" = Some "A"%char) by reflexivity.
  assert (H3 : is_letter Signed "A"%char = true) by reflexivity.
  split; [exact H1|]. split; [exact H2|]. split; [exact H3|].
  split; [reflexivity|].
  destruct (letter_output_between_40_and_90 Signed (Vigenere_new "(") "A" 0 "A"%char
              H1 H2 H3) as ((out & o & A & B & C & _) & _).
  exists out, o. repeat split; try assumption; apply C.
Defined.

Lemma encrypt_decrypt_by_blocks_witness :
  1 <= length (key (Vigenere_new "KEY")) /\
  Nat.modulo (length "HEL") (length (key (Vigenere_new "KEY"))) = 0 /\
  exists ea eb,
    encrypt Signed "HEL" (Vigenere_new "KEY") = Ok (ea, Vigenere_new "KEY") /\
    encrypt Signed "LO" (Vigenere_new "KEY") = Ok (eb, Vigenere_new "KEY") /\
    encrypt Signed ("HEL" ++ "LO") (Vigenere_new "KEY") = Ok (ea ++ eb, Vigenere_new "KEY").
Proof.
  assert (H1 : 1 <= length (key (Vigenere_new "KEY"))) by (simpl; repeat constructor).
  assert (H2 : Nat.modulo (length "HEL") (length (key (Vigenere_new "KEY"))) = 0)
    by reflexivity.
  split; [exact H1|]. split; [exact H2|].
  exact (proj1 (encrypt_decrypt_by_blocks Signed (Vigenere_new "KEY") "HEL" "LO" H1 H2)).
Defined.

Lemma equal_characters_one_key_length_apart_witness :
  1 <= length (key (Vigenere_new "KEY")) /\
  get 0 "ABCABC" = Some "A"%char /\
  get (0 + length (key (Vigenere_new "KEY"))) "ABCABC" = Some "A"%char /\
  exists out o,
    encrypt Signed "ABCABC" (Vigenere_new "KEY") = Ok (out, Vigenere_new "KEY") /\
    get 0 out = Some o /\
    get (0 + length (key (Vigenere_new "KEY"))) out = Some o.
Proof.
  assert (H1 : 1 <= length (key (Vigenere_new "KEY"))) by (simpl; repeat constructor).
  assert (H2 : get 0 "ABCABC" = Some "A"%char) by reflexivity.
  assert (H3 : get (0 + length (key (Vigenere_new "KEY"))) "ABCABC" = Some "A"%char)
    by reflexivity.
  split; [exact H1|]. split; [exact H2|]. split; [exact H3|].
  exact (proj1 (equal_characters_one_key_length_apart Signed (Vigenere_new "KEY")
                  "ABCABC" 0 "A"%char H1 H2 H3)).
Defined.

Lemma no_letter_message_unchanged_witness :
  has_letter Signed "12:30" = false /\
  encrypt Signed "12:30" (Vigenere_new "") = Ok ("12:30", Vigenere_new "") /\
  decrypt Signed "12:30" (Vigenere_new "") = Ok ("12:30", Vigenere_new "") /\
  isEncrypted Signed "12:31" "12:30" (Vigenere_new "") = Ok (false, Vigenere_new "").
Proof.
  assert (H1 : has_letter Signed "12:30" = false) by reflexivity.
  split; [exact H1|].
  exact (no_letter_message_unchanged Signed (Vigenere_new "") "12:30" "12:31" H1).
Defined.

Lemma doubled_key_same_cipher_witness :
  1 <= length "KEY" /\
  exists e,
    encrypt Signed "ATTACK AT DAWN" (Vigenere_new "KEY") = Ok (e, Vigenere_new "KEY") /\
    encrypt Signed "ATTACK AT DAWN" (Vigenere_new "KEYKEY") = Ok (e, Vigenere_new "KEYKEY").
Proof.
  assert (H1 : 1 <= length "KEY") by (simpl; repeat constructor).
  split; [exact H1|].
  exact (proj1 (doubled_key_same_cipher Signed "KEY" "ATTACK AT DAWN" H1)).
Defined.

Lemma char_sign_irrelevant_for_ascii_key_witness :
  all_ascii (key (Vigenere_new "Key 1")) = true /\
  encrypt Signed "Hi there" (Vigenere_new "Key 1")
  = encrypt Unsigned "Hi there" (Vigenere_new "Key 1").
Proof.
  assert (H1 : all_ascii (key (Vigenere_new "Key 1")) = true) by reflexivity.
  split; [exact H1|].
  exact (proj1 (char_sign_irrelevant_for_ascii_key (Vigenere_new "Key 1")
                  "Hi there" "" H1)).
Defined.

Lemma roundtrip_iff_key_in_range_witness :
  1 <= length "a" /\
  string_forall key_char_in_range "a" = false /\
  ~ (forall msg, letters_upper Signed msg = true ->
       exists e, encrypt Signed msg (Vigenere_new "a") = Ok (e, Vigenere_new "a") /\
                 decrypt Signed e (Vigenere_new "a") = Ok (msg, Vigenere_new "a")).
Proof.
  assert (H1 : 1 <= length "a") by (simpl; repeat constructor).
  split; [exact H1|]. split; [reflexivity|].
  intros H.
  apply (proj1 (roundtrip_iff_key_in_range Signed "a" H1)) in H.
  discriminate H.
Defined.
